(** * ChessDatasetGenerator: the FEN aggregation engine

    A shallow embedding of the position-aggregation pipeline of
    ChessDatasetGenerator: the extraction worker ([src/lib/fen-worker.js],
    [processGame]), the rotating chunk writer and the chunk sorter
    ([src/fen.js], [writePositionsToChunk], [processSingleChunk]), the
    intermediate K-way merge worker ([src/lib/merge-worker.js],
    [kWayMergeToSingleFile]), the multi-phase orchestration and the final
    partitioning merge ([src/fen.js], [multiPhaseKWayMerge],
    [kWayMergeFinal]).

    Strings are Rocq strings whose characters stand for UTF-16 code units
    in the range 0..255.  Numbers of the JavaScript code are integers
    ([Z]); all counters of the engine are sums of small integers. *)

From Stdlib Require Import String Ascii List ZArith Lia Bool Arith.
From Stdlib Require Import Sorting.Sorted Sorting.Permutation.
Import ListNotations.
Open Scope string_scope.

(* ------------------------------------------------------------------ *)
(** ** JavaScript string primitives *)

Module Js.

(** [String.prototype.trim] removes WhiteSpace and LineTerminator code
    units; in the range 0..255 these are TAB, LF, VT, FF, CR, SPACE and
    NO-BREAK SPACE. *)
Definition is_space (c : ascii) : bool :=
  match nat_of_ascii c with
  | 9 | 10 | 11 | 12 | 13 | 32 | 160 => true
  | _ => false
  end.

Fixpoint trim_left (s : string) : string :=
  match s with
  | EmptyString => EmptyString
  | String c s' => if is_space c then trim_left s' else s
  end.

Fixpoint trim_right (s : string) : string :=
  match s with
  | EmptyString => EmptyString
  | String c s' =>
      let r := trim_right s' in
      match r with
      | EmptyString => if is_space c then EmptyString else String c EmptyString
      | _ => String c r
      end
  end.

Definition trim (s : string) : string := trim_right (trim_left s).

(** One-character strings for TAB and LF. *)
Definition TAB : string := String "009"%char EmptyString.
Definition NL : string := String "010"%char EmptyString.

(** [s.indexOf(c, from)]: position of the first [c] at or after [from],
    or -1. *)
Fixpoint index_from (c : ascii) (pos : nat) (from : nat) (s : string) : Z :=
  match s with
  | EmptyString => (-1)%Z
  | String d s' =>
      if (from <=? pos)%nat && Ascii.eqb c d then Z.of_nat pos
      else index_from c (S pos) from s'
  end.

Definition indexOf (s : string) (c : ascii) (from : nat) : Z :=
  index_from c 0 from s.

(** [s.substring(start, end)]: both bounds clamped to [0, length], then
    swapped when start > end. *)
Definition substring (s : string) (start end_ : Z) : string :=
  let len := Z.of_nat (String.length s) in
  let a := Z.max 0 (Z.min start len) in
  let b := Z.max 0 (Z.min end_ len) in
  let lo := Z.min a b in
  let hi := Z.max a b in
  String.substring (Z.to_nat lo) (Z.to_nat (hi - lo)) s.

(** [s.substring(start)], the end defaulting to the length. *)
Definition substring_from (s : string) (start : Z) : string :=
  substring s start (Z.of_nat (String.length s)).

(** [s.split(c)] for a one-character separator. *)
Fixpoint split (c : ascii) (s : string) : list string :=
  match s with
  | EmptyString => [EmptyString]
  | String d s' =>
      match split c s' with
      | [] => [String d EmptyString] (* unreachable: split is never empty *)
      | h :: t => if Ascii.eqb c d then EmptyString :: h :: t else String d h :: t
      end
  end.

(** Decimal rendering of a number in a template literal. *)
Fixpoint digits (fuel : nat) (n : Z) (acc : string) : string :=
  match fuel with
  | O => acc
  | S f =>
      let acc' := String (ascii_of_nat (48 + Z.to_nat (n mod 10))) acc in
      if (n <? 10)%Z then acc' else digits f (n / 10) acc'
  end.

Definition number_to_string (z : Z) : string :=
  if (z <? 0)%Z
  then String "-" (digits (S (Z.to_nat (Z.log2 (- z)))) (- z) EmptyString)
  else digits (S (Z.to_nat (Z.log2 z))) z EmptyString.

(** [parseInt(s)] with no radix: leading white space, an optional sign,
    an optional 0x/0X prefix selecting base 16, then the longest run of
    digits of that base; no digit at all gives NaN ([None]). *)
Definition digit_value (base : Z) (c : ascii) : option Z :=
  let n := Z.of_nat (nat_of_ascii c) in
  let v :=
    if (48 <=? n)%Z && (n <=? 57)%Z then (n - 48)%Z
    else if (97 <=? n)%Z && (n <=? 122)%Z then (n - 87)%Z
    else if (65 <=? n)%Z && (n <=? 90)%Z then (n - 55)%Z
    else 99%Z in
  if (v <? base)%Z then Some v else None.

Fixpoint parse_digits (base : Z) (s : string) (acc : option Z) : option Z :=
  match s with
  | EmptyString => acc
  | String c s' =>
      match digit_value base c with
      | Some v =>
          parse_digits base s'
            (Some (match acc with Some a => (a * base + v)%Z | None => v end))
      | None => acc
      end
  end.

Definition parse_unsigned (s : string) : option Z :=
  match s with
  | String "0" (String x rest) =>
      if Ascii.eqb x "x" || Ascii.eqb x "X"
      then parse_digits 16%Z rest None
      else parse_digits 10%Z s None
  | _ => parse_digits 10%Z s None
  end.

Definition parseInt (s : string) : option Z :=
  match trim_left s with
  | String "-" rest => option_map Z.opp (parse_unsigned rest)
  | String "+" rest => parse_unsigned rest
  | t => parse_unsigned t
  end.

(** [parseInt(s) || 0]: NaN (and 0) become 0. *)
Definition parseInt_or0 (s : string) : Z :=
  match parseInt s with Some z => z | None => 0%Z end.

End Js.

(* ------------------------------------------------------------------ *)
(** ** [String.prototype.localeCompare]

    The merge and the chunk sorter order keys with [localeCompare], i.e.
    the ICU root collation at tertiary strength.  It is modelled for the
    code units the engine handles: control characters other than
    TAB..CR are ignorable; white space, then ASCII punctuation in root
    collation order, then digits, then letters carry increasing primary
    weights, a letter and its capital sharing one primary weight; at the
    tertiary level a small letter precedes its capital.  Code units
    128..255 other than NO-BREAK SPACE get primary weights after the
    letters, in code order.  Strings are compared on the sequence of
    primary weights first and on the tertiary sequence on a tie. *)

Module Collation.

(** Root-collation order of the ASCII white space and punctuation. *)
Definition variable_order : list nat :=
  [9; 10; 11; 12; 13; 32; 95; 45; 44; 59; 58; 33; 63; 46; 39; 34; 40; 41;
   91; 93; 123; 125; 64; 42; 47; 92; 38; 35; 37; 96; 94; 43; 60; 61; 62;
   124; 126; 36].

Fixpoint position (n : nat) (l : list nat) (i : nat) : option nat :=
  match l with
  | [] => None
  | m :: l' => if Nat.eqb n m then Some i else position n l' (S i)
  end.

Definition primary_weight (c : ascii) : option nat :=
  let n := nat_of_ascii c in
  if Nat.eqb n 160 then Some 6%nat else
  match position n variable_order 1 with
  | Some w => Some w
  | None =>
      if (48 <=? n)%nat && (n <=? 57)%nat then Some (100 + (n - 48))%nat
      else if (65 <=? n)%nat && (n <=? 90)%nat then Some (200 + (n - 65))%nat
      else if (97 <=? n)%nat && (n <=? 122)%nat then Some (200 + (n - 97))%nat
      else if (128 <=? n)%nat then Some (1000 + n)%nat
      else None
  end.

Definition tertiary_weight (c : ascii) : nat :=
  let n := nat_of_ascii c in
  if (65 <=? n)%nat && (n <=? 90)%nat then 1%nat else 0%nat.

Fixpoint primary_keys (s : string) : list nat :=
  match s with
  | EmptyString => []
  | String c s' =>
      match primary_weight c with
      | Some w => w :: primary_keys s'
      | None => primary_keys s'
      end
  end.

Fixpoint tertiary_keys (s : string) : list nat :=
  match s with
  | EmptyString => []
  | String c s' =>
      match primary_weight c with
      | Some _ => tertiary_weight c :: tertiary_keys s'
      | None => tertiary_keys s'
      end
  end.

Fixpoint lex (a b : list nat) : comparison :=
  match a, b with
  | [], [] => Eq
  | [], _ :: _ => Lt
  | _ :: _, [] => Gt
  | x :: a', y :: b' =>
      match Nat.compare x y with
      | Eq => lex a' b'
      | c => c
      end
  end.

Definition localeCompare (a b : string) : comparison :=
  match lex (primary_keys a) (primary_keys b) with
  | Eq => lex (tertiary_keys a) (tertiary_keys b)
  | c => c
  end.

End Collation.

(* ------------------------------------------------------------------ *)
(** ** [Array.prototype.sort] with a comparator

    V8 sorts stably; for a comparator that is a total preorder the output
    of any stable sort is the stable insertion sort below. *)

Module StableSort.
Section Sort.
Context {A : Type} (cmp : A -> A -> comparison).

Fixpoint insert (x : A) (l : list A) : list A :=
  match l with
  | [] => [x]
  | y :: l' =>
      match cmp x y with
      | Lt => x :: y :: l'
      | _ => y :: insert x l'
      end
  end.

Fixpoint sort_acc (acc : list A) (l : list A) : list A :=
  match l with
  | [] => acc
  | x :: l' => sort_acc (insert x acc) l'
  end.

Definition sort (l : list A) : list A := sort_acc [] l.

Definition le (a b : A) : Prop := cmp a b <> Gt.

End Sort.
End StableSort.

(* ------------------------------------------------------------------ *)
(** ** Merge worker: [MergeWorker.kWayMergeToSingleFile]
    (src/lib/merge-worker.js) *)

Module MergeWorker.

Record stats := mkStats {
  occurrence : Z; white : Z; black : Z; draw : Z }.

Definition zero_stats : stats := mkStats 0 0 0 0.

(** The lines [readNextLineBatch] delivers for a file: the content split
    on newlines (the last piece being the buffered remainder), each piece
    trimmed, empty pieces skipped. *)
Definition reader_lines (content : string) : list string :=
  filter (fun l => negb (String.eqb l "")) (map Js.trim (Js.split "010"%char content)).

(** A reader is the sequence of lines it has still to deliver: its line
    queue followed by what it has not read yet.  It is [finished] once
    this sequence is empty; the batched refills only move lines from the
    file into the queue. *)
Definition reader := list string.

(** An entry of [currentPositions]: [c_fen] is [None] where the object
    has no [fen] property (intermediate phases); [c_sep] is [secondPipe]
    in phase 1 and [separatorIndex] otherwise. *)
Record candidate := mkCand {
  c_hash : string; c_fen : option string; c_reader : nat; c_line : string;
  c_sep : Z }.

Definition parse_head (isFirstPhase : bool) (i : nat) (line : string)
  : option candidate :=
  if isFirstPhase then
    let firstPipe := Js.indexOf line "|" 0 in
    if (firstPipe =? -1)%Z then None else
    let hash := Js.substring line 0 firstPipe in
    let secondPipe := Js.indexOf line "|" (Z.to_nat (firstPipe + 1)) in
    let fen := Js.substring line (firstPipe + 1)
                 (if negb (secondPipe =? -1)%Z then secondPipe
                  else Z.of_nat (String.length line)) in
    Some (mkCand hash (Some fen) i line secondPipe)
  else
    let separatorIndex := Js.indexOf line "009"%char 0 in
    if (separatorIndex =? -1)%Z then None else
    let hash := Js.substring line 0 separatorIndex in
    Some (mkCand hash None i line separatorIndex).

Fixpoint collect (isFirstPhase : bool) (i : nat) (readers : list reader)
  : list candidate :=
  match readers with
  | [] => []
  | r :: rs =>
      let rest := collect isFirstPhase (S i) rs in
      match r with
      | [] => rest
      | line :: _ =>
          match parse_head isFirstPhase i line with
          | Some c => c :: rest
          | None => rest
          end
      end
  end.

Definition cand_cmp (a b : candidate) : comparison :=
  Collation.localeCompare (c_hash a) (c_hash b).

(** [lineQueue.shift()] on reader [i]. *)
Fixpoint shift (i : nat) (readers : list reader) : list reader :=
  match readers, i with
  | [], _ => []
  | r :: rs, O => tl r :: rs
  | r :: rs, S j => r :: shift j rs
  end.

(** Positions of the next [k] tabs at or after [from]. *)
Fixpoint tabs_from (s : string) (pos from k : nat) : list Z :=
  match k with
  | O => []
  | S k' =>
      match s with
      | EmptyString => []
      | String c s' =>
          if (from <=? pos)%nat && Ascii.eqb c "009"%char
          then Z.of_nat pos :: tabs_from s' (S pos) from k'
          else tabs_from s' (S pos) from k
      end
  end.

(** [tabs[k] + 1] as a substring start ([undefined + 1] is NaN, read as 0)
    and [tabs[k]] as a substring end ([undefined] is the length). *)
Definition tab_start (tabs : list Z) (k : nat) : Z :=
  match nth_error tabs k with Some t => t + 1 | None => 0 end.
Definition tab_end (line : string) (tabs : list Z) (k : nat) : Z :=
  match nth_error tabs k with
  | Some t => t | None => Z.of_nat (String.length line) end.

Definition add_line (isFirstPhase : bool) (c : candidate) (line : string)
  (st : stats) : stats :=
  if isFirstPhase then
    let result := Js.substring_from line (c_sep c + 1) in
    let st1 := mkStats (occurrence st + 1) (white st) (black st) (draw st) in
    if String.eqb result "1-0" then mkStats (occurrence st1) (white st1 + 1) (black st1) (draw st1)
    else if String.eqb result "0-1" then mkStats (occurrence st1) (white st1) (black st1 + 1) (draw st1)
    else if String.eqb result "1/2-1/2" then mkStats (occurrence st1) (white st1) (black st1) (draw st1 + 1)
    else st1
  else
    let sep := c_sep c in
    let tabs := sep :: tabs_from line 0 (Z.to_nat (sep + 1)) 4 in
    mkStats
      (occurrence st + Js.parseInt_or0 (Js.substring line (tab_start tabs 1) (tab_end line tabs 2)))
      (white st + Js.parseInt_or0 (Js.substring line (tab_start tabs 2) (tab_end line tabs 3)))
      (black st + Js.parseInt_or0 (Js.substring line (tab_start tabs 3) (tab_end line tabs 4)))
      (draw st + Js.parseInt_or0 (Js.substring_from line (tab_start tabs 4))).

(** The inner [for (const pos of currentPositions)] loop: the sorted
    candidates are consumed while their hash is [minHash]. *)
Fixpoint consume (isFirstPhase : bool) (minHash : string) (cs : list candidate)
  (readers : list reader) (st : stats) : list reader * stats :=
  match cs with
  | [] => (readers, st)
  | c :: cs' =>
      if negb (String.eqb (c_hash c) minHash) then (readers, st) else
      let line := hd "" (nth (c_reader c) readers []) in
      consume isFirstPhase minHash cs' (shift (c_reader c) readers)
        (add_line isFirstPhase c line st)
  end.

(** A flushed aggregate: [currentFen.hash], [currentFen.fen] and the
    statistics. *)
Record flushed := mkFlushed { f_hash : string; f_fen : option string; f_stats : stats }.

Definition flush (cur : option (string * option string)) (st : stats)
  (out : list flushed) : list flushed :=
  match cur with
  | Some (h, f) => out ++ [mkFlushed h f st]
  | None => out
  end.

Definition all_finished (readers : list reader) : bool :=
  forallb (fun r => match r with [] => true | _ => false end) readers.

(** The [while (readers.some(r => !r.finished))] loop; every iteration
    that does not [break] consumes at least one line, so the total number
    of lines plus one is enough fuel. *)
Fixpoint merge_loop (isFirstPhase : bool) (fuel : nat) (readers : list reader)
  (cur : option (string * option string)) (st : stats) (out : list flushed)
  : list flushed :=
  match fuel with
  | O => flush cur st out
  | S fuel' =>
      if all_finished readers then flush cur st out else
      match StableSort.sort cand_cmp (collect isFirstPhase 0 readers) with
      | [] => flush cur st out
      | (c0 :: _) as cs =>
          let minHash := c_hash c0 in
          let '(out', st') :=
            match cur with
            | Some (h, _) =>
                if negb (String.eqb h minHash)
                then (flush cur st out, zero_stats) else (out, st)
            | None => (out, st)
            end in
          let '(readers', st'') := consume isFirstPhase minHash cs readers st' in
          merge_loop isFirstPhase fuel' readers' (Some (minHash, c_fen c0)) st'' out'
      end
  end.

Definition total_lines (readers : list reader) : nat :=
  fold_right (fun r n => (length r + n)%nat) 0%nat readers.

(** The records flushed by a merge of the given readers. *)
Definition kWayMergeRecords (readers : list reader) (isFirstPhase : bool)
  : list flushed :=
  merge_loop isFirstPhase (S (total_lines readers)) readers None zero_stats [].

(** The template literal of a flushed record. *)
Definition output_line (r : flushed) : string :=
  f_hash r ++ Js.TAB ++
  (match f_fen r with Some f => f | None => "undefined" end) ++ Js.TAB ++
  Js.number_to_string (occurrence (f_stats r)) ++ Js.TAB ++
  Js.number_to_string (white (f_stats r)) ++ Js.TAB ++
  Js.number_to_string (black (f_stats r)) ++ Js.TAB ++
  Js.number_to_string (draw (f_stats r)) ++ Js.NL.

Record merge_result := mkMergeResult {
  positionsWritten : nat; output : string }.

(** [kWayMergeToSingleFile(inputFiles, outputFile, isFirstPhase)] on the
    contents of the input files: the output file content and the count. *)
Definition kWayMergeToSingleFile (inputFiles : list string) (isFirstPhase : bool)
  : merge_result :=
  let recs := kWayMergeRecords (map reader_lines inputFiles) isFirstPhase in
  mkMergeResult (length recs) (String.concat "" (map output_line recs)).

End MergeWorker.

(* ------------------------------------------------------------------ *)
(** ** Chunk writer: [FenProcessor.initChunk] and
    [FenProcessor.writePositionsToChunk] (src/fen.js) *)

Module ChunkWriter.

(** A PositionRecord as posted by the extraction worker. *)
Record position := mkPosition {
  p_fen : string; p_result : string; p_gameId : option string }.

(** The writer's fields: the chunk files ended so far (their lines, in
    order), the lines of the open chunk file, and the index file. *)
Record state := mkState {
  chunkSize : nat;
  chunkIndex : nat;
  positionsInCurrentChunk : nat;
  positionsProcessed : nat;
  closedChunks : list (list string);
  currentChunk : list string;
  indexLines : list string }.

(** [initChunk()]: a fresh [chunk_<chunkIndex>.tmp] stream; the index
    stream (with its header) is opened on the first call only. *)
Definition initChunk (st : state) : state :=
  mkState (chunkSize st) (chunkIndex st) 0 (positionsProcessed st)
    (closedChunks st) []
    (match indexLines st with
     | [] => ["fen" ++ Js.TAB ++ "game_id" ++ Js.NL]
     | l => l
     end).

(** The writer as [processPgnFileMultithread] leaves it after its first
    [this.initChunk()]. *)
Definition start (chunkSize : nat) : state :=
  initChunk (mkState chunkSize 0 0 0 [] [] []).

(** [gameId] is truthy when it is a non-empty string. *)
Definition truthy (o : option string) : option string :=
  match o with
  | Some "" | None => None
  | Some g => Some g
  end.

(** One iteration of the [for (const position of positions)] loop. *)
Definition write_one (st : state) (p : position) : state :=
  let st1 :=
    if (chunkSize st <=? positionsInCurrentChunk st)%nat
    then initChunk (mkState (chunkSize st) (S (chunkIndex st))
                      (positionsInCurrentChunk st) (positionsProcessed st)
                      (closedChunks st ++ [currentChunk st]) []
                      (indexLines st))
    else st in
  let line := p_fen p ++ "|" ++ p_result p ++ Js.NL in
  mkState (chunkSize st1) (chunkIndex st1)
    (S (positionsInCurrentChunk st1)) (S (positionsProcessed st1))
    (closedChunks st1) (currentChunk st1 ++ [line])
    (match truthy (p_gameId p) with
     | Some g => indexLines st1 ++ [p_fen p ++ Js.TAB ++ g ++ Js.NL]
     | None => indexLines st1
     end).

Definition writePositionsToChunk (st : state) (positions : list position) : state :=
  fold_left write_one positions st.

(** The worker results handed to [writePositionsToChunk], one call per
    batch message. *)
Definition write_batches (st : state) (batches : list (list position)) : state :=
  fold_left writePositionsToChunk batches st.

(** All chunk files of the run once [finishProcessing] ends the open one. *)
Definition chunk_files (st : state) : list (list string) :=
  closedChunks st ++ [currentChunk st].

End ChunkWriter.

(* ------------------------------------------------------------------ *)
(** ** Chunk sorter: [FenProcessor.processSingleChunk] (src/fen.js) *)

Module ChunkSorter.

(** Node's [readline] splits its input at LF, CR and CR LF. [segments]
    returns the first piece and the following ones. *)
Fixpoint segments (s : string) : string * list string :=
  match s with
  | EmptyString => (EmptyString, [])
  | String c s' =>
      if Ascii.eqb c "010"%char then
        let '(h, t) := segments s' in (EmptyString, h :: t)
      else if Ascii.eqb c "013"%char then
        match s' with
        | String d s'' =>
            if Ascii.eqb d "010"%char
            then let '(h, t) := segments s'' in (EmptyString, h :: t)
            else let '(h, t) := segments s' in (EmptyString, h :: t)
        | EmptyString => (EmptyString, [EmptyString])
        end
      else let '(h, t) := segments s' in (String c h, t)
  end.

(** Every terminated line is a ['line'] event; an unterminated remainder
    is emitted on close when it is not empty. *)
Fixpoint drop_empty_last (l : list string) : list string :=
  match l with
  | [] => []
  | [x] => if String.eqb x "" then [] else [x]
  | x :: l' => x :: drop_empty_last l'
  end.

Definition readline_lines (content : string) : list string :=
  let '(h, t) := segments content in drop_empty_last (h :: t).

(** [a.split('|')[0]] *)
Definition sort_key (line : string) : string := hd "" (Js.split "|" line).

Definition line_cmp (a b : string) : comparison :=
  Collation.localeCompare (sort_key a) (sort_key b).

(** [if (line.trim())]: the untrimmed line is kept. *)
Definition nonblank (line : string) : bool := negb (String.eqb (Js.trim line) "").

Definition sorted_lines (content : string) : list string :=
  StableSort.sort line_cmp (filter nonblank (readline_lines content)).

(** The bytes written: [line + '\n'] for every line. *)
Fixpoint render (lines : list string) : string :=
  match lines with
  | [] => EmptyString
  | l :: ls => l ++ String "010"%char (render ls)
  end.

Definition sortedContent (content : string) : string :=
  render (sorted_lines content).

(** The temp directory as a map from paths to contents. *)
Definition fs := list (string * string).

Fixpoint fs_lookup (f : fs) (p : string) : option string :=
  match f with
  | [] => None
  | (q, c) :: f' => if String.eqb p q then Some c else fs_lookup f' p
  end.

Definition fs_remove (f : fs) (p : string) : fs :=
  filter (fun e => negb (String.eqb (fst e) p)) f.

(** [fs.createWriteStream(p)] truncates or creates [p]. *)
Definition fs_write (f : fs) (p : string) (c : string) : fs :=
  (p, c) :: fs_remove f p.

(** [s.replace(pat, rep)] with a string pattern: the first occurrence. *)
Definition replace_first (s pat rep : string) : string :=
  match String.index 0 pat s with
  | Some i => String.substring 0 i s ++ rep ++
              String.substring (i + String.length pat) (String.length s - (i + String.length pat)) s
  | None => s
  end.

(** [processSingleChunk(chunkFile)]: [None] is a rejected promise (the
    read stream fails on a missing file); otherwise the sorted file's path
    and the directory after the write and the [unlinkSync]. *)
Definition processSingleChunk (f : fs) (chunkFile : string) : option (string * fs) :=
  let sortedFile := replace_first chunkFile ".tmp" "_sorted.tmp" in
  match fs_lookup f chunkFile with
  | None => None
  | Some content =>
      Some (sortedFile, fs_remove (fs_write f sortedFile (sortedContent content)) chunkFile)
  end.

End ChunkSorter.

(* ------------------------------------------------------------------ *)
(** ** Final merge: [FenProcessor.kWayMergeFinal] (src/fen.js) *)

Module FinalMerge.
Import MergeWorker.

(** An aggregate flushed by the final merge: [currentFen] and
    [currentStats]. *)
Record record := mkRecord { r_fen : string; r_stats : stats }.

(** The [currentPositions] of one iteration: the head line of every
    unfinished reader that has at least five tab-separated parts, with
    [parts[0]] as its FEN. *)
Fixpoint collect (i : nat) (readers : list reader) : list (string * nat) :=
  match readers with
  | [] => []
  | r :: rs =>
      let rest := collect (S i) rs in
      match r with
      | [] => rest
      | line :: _ =>
          let parts := Js.split "009"%char line in
          if (5 <=? length parts)%nat then (hd "" parts, i) :: rest else rest
      end
  end.

Definition pos_cmp (a b : string * nat) : comparison :=
  Collation.localeCompare (fst a) (fst b).

(** [currentStats.x += parseInt(parts[k]) || 0] for one line. *)
Definition add_line (line : string) (st : stats) : stats :=
  let parts := Js.split "009"%char line in
  mkStats (occurrence st + Js.parseInt_or0 (nth 1 parts ""))
          (white st + Js.parseInt_or0 (nth 2 parts ""))
          (black st + Js.parseInt_or0 (nth 3 parts ""))
          (draw st + Js.parseInt_or0 (nth 4 parts "")).

(** The [for (const reader of minReaders)] loop, [readNextLine] moving a
    reader to its next line. *)
Fixpoint absorb (minReaders : list nat) (readers : list reader) (st : stats)
  : list reader * stats :=
  match minReaders with
  | [] => (readers, st)
  | i :: is =>
      absorb is (shift i readers) (add_line (hd "" (nth i readers [])) st)
  end.

Section Loop.
(** The flush action: where the final merge writes a finished aggregate.
    [None] is an exception thrown by the write. *)
Context {S : Type} (sink : record -> S -> option S).

Definition finish (cur : option string) (st : stats) (acc : S) : option S :=
  match cur with
  | Some fen => sink (mkRecord fen st) acc
  | None => Some acc
  end.

Fixpoint final_loop (fuel : nat) (readers : list reader) (cur : option string)
  (st : stats) (acc : S) : option S :=
  match fuel with
  | O => finish cur st acc
  | Datatypes.S fuel' =>
      if all_finished readers then finish cur st acc else
      match StableSort.sort pos_cmp (collect 0 readers) with
      | [] => finish cur st acc
      | ((minFen, _) :: _) as cps =>
          let minReaders := map snd (filter (fun p => String.eqb (fst p) minFen) cps) in
          let flushed :=
            match cur with
            | Some fen =>
                if negb (String.eqb fen minFen)
                then option_map (fun a => (a, zero_stats)) (sink (mkRecord fen st) acc)
                else Some (acc, st)
            | None => Some (acc, st)
            end in
          match flushed with
          | None => None
          | Some (acc', st') =>
              let '(readers', st'') := absorb minReaders readers st' in
              final_loop fuel' readers' (Some minFen) st'' acc'
          end
      end
  end.
End Loop.

(** The eleven partition streams, by property key, with the lines
    written to each. *)
Definition streams := list (string * list string).

Definition bucket_keys : list string :=
  ["1"; "2"; "3"; "4"; "5"; "6"; "7"; "8"; "9"; "10plus"].

Definition init_streams : streams := map (fun k => (k, [])) bucket_keys.

Definition record_line (r : record) : string :=
  r_fen r ++ Js.TAB ++
  Js.number_to_string (occurrence (r_stats r)) ++ Js.TAB ++
  Js.number_to_string (white (r_stats r)) ++ Js.TAB ++
  Js.number_to_string (black (r_stats r)) ++ Js.TAB ++
  Js.number_to_string (draw (r_stats r)) ++ Js.NL.

(** [partitionStreams['10plus']] for an occurrence of at least 10, else
    [partitionStreams[occurrence]], whose key is the number's string. *)
Definition partition_key (occ : Z) : string :=
  if (10 <=? occ)%Z then "10plus" else Js.number_to_string occ.

(** [stream.write(line)]: a TypeError when the property is undefined. *)
Fixpoint write_stream (ps : streams) (key line : string) : option streams :=
  match ps with
  | [] => None
  | (k, ls) :: ps' =>
      if String.eqb k key then Some ((k, (ls ++ [line])%list) :: ps')
      else option_map (fun q => (k, ls) :: q) (write_stream ps' key line)
  end.

Definition route (r : record) (ps : streams) : option streams :=
  write_stream ps (partition_key (occurrence (r_stats r))) (record_line r).

(** The records flushed, in order (the loop with a sink that keeps them). *)
Definition keep (r : record) (l : list record) : option (list record) := Some (l ++ [r])%list.

Definition fuel_for (readers : list reader) : nat := Datatypes.S (total_lines readers).

Definition final_records (readers : list reader) : list record :=
  match final_loop keep (fuel_for readers) readers None zero_stats [] with
  | Some l => l
  | None => []
  end.

(** [kWayMergeFinal(inputFiles)] on the lines of its input files: the
    partition streams, or [None] when the merge throws. *)
Definition kWayMergeFinal (readers : list reader) : option streams :=
  final_loop route (fuel_for readers) readers None zero_stats init_streams.

Definition kWayMergeFinalFiles (inputFiles : list string) : option streams :=
  kWayMergeFinal (map reader_lines inputFiles).

End FinalMerge.

(* ------------------------------------------------------------------ *)
(** ** Phase reducer: [FenProcessor.multiPhaseKWayMerge] and [run]
    (src/fen.js) *)

Module Orchestrator.

(** What [mergeWorkerPool.executeMerge] settles with: the worker's
    message with [success: true] or [success: false], or the worker's
    ['error'] event (a rejection). *)
Inductive merge_outcome :=
| MergeSuccess (positionsWritten : nat)
| MergeFailure (error : string)
| WorkerError (error : string).

Record task := mkTask {
  t_batch : list string; t_outputFile : string; t_mergeIndex : nat;
  t_isFirstPhase : bool }.

Definition chunksPerMerge : nat := 6.

(** [for (i = 0; i < n; i += k) currentFiles.slice(i, i + k)] *)
Fixpoint batches (fuel k : nat) (files : list string) : list (list string) :=
  match fuel, files with
  | O, _ | _, [] => []
  | S f, _ => firstn k files :: batches f k (skipn k files)
  end.

Definition phase_tasks (tempDir : string) (phaseNumber : nat) (files : list string)
  : list task :=
  let phaseDir := tempDir ++ "/phase" ++ Js.number_to_string (Z.of_nat phaseNumber) in
  let bs := batches (length files) chunksPerMerge files in
  map (fun ib =>
         mkTask (snd ib)
           (phaseDir ++ "/chunk_" ++ Js.number_to_string (Z.of_nat (fst ib)) ++ ".tmp")
           (fst ib) (Nat.eqb phaseNumber 1))
      (combine (seq 0 (length bs)) bs).

(** A task's promise in [mergeTasks.map]: it throws [Worker merge
    failed] when the worker reports [success: false], and rejects when the
    worker errors. *)
Definition task_ok (o : merge_outcome) : bool :=
  match o with MergeSuccess _ => true | _ => false end.

Inductive phase_outcome :=
| ReadyForFinal (files : list string)   (* the loop exits: final merge next *)
| Aborted                               (* [Promise.all] rejected: the method throws *)
| OutOfFuel.

(** The [while] loop.  [exec] is the merge pool's answer for a task; the
    second component lists the tasks submitted, in order.  All tasks of a
    phase are submitted by the [map] before [Promise.all] is awaited. *)
Fixpoint phases (exec : task -> merge_outcome) (tempDir : string) (fuel : nat)
  (files : list string) (phaseNumber : nat) : phase_outcome * list task :=
  if (chunksPerMerge <? length files)%nat || Nat.eqb phaseNumber 1 then
    match fuel with
    | O => (OutOfFuel, [])
    | S fuel' =>
        let tasks := phase_tasks tempDir phaseNumber files in
        if forallb (fun t => task_ok (exec t)) tasks then
          let '(o, log) := phases exec tempDir fuel' (map t_outputFile tasks) (S phaseNumber) in
          (o, (tasks ++ log)%list)
        else (Aborted, tasks)
    end
  else (ReadyForFinal files, []).

Definition multiPhaseKWayMerge (exec : task -> merge_outcome) (tempDir : string)
  (sortedFiles : list string) : phase_outcome * list task :=
  phases exec tempDir (S (length sortedFiles)) sortedFiles 1.

(** [run()]: after the merge phases it runs the final merge and the
    output steps, whose success on the files the phases leave is
    [rest_ok]; an exception is logged and rethrown, and the top-level
    [catch] exits with status 1. *)
Inductive run_outcome := RunCompleted | RunFailed.

Definition run (exec : task -> merge_outcome) (rest_ok : list string -> bool)
  (tempDir : string) (sortedFiles : list string) : run_outcome :=
  match fst (multiPhaseKWayMerge exec tempDir sortedFiles) with
  | ReadyForFinal files => if rest_ok files then RunCompleted else RunFailed
  | Aborted | OutOfFuel => RunFailed
  end.

End Orchestrator.

(* ------------------------------------------------------------------ *)
(** ** Extraction worker: [processGame] (src/lib/fen-worker.js) *)

Module FenWorker.

Definition QUOTE : ascii := "034"%char.

(** [extractResult]: the first match of the multiline regular expression
    made of [\s+], a captured token among 1-0, 0-1, 1/2-1/2 and the star,
    then [\s*$].  [\s*$] succeeds when the white space after the token
    reaches the end of the text or a line terminator. *)
Fixpoint ws_to_line_end (s : string) : bool :=
  match s with
  | EmptyString => true
  | String c s' =>
      if Ascii.eqb c "010"%char || Ascii.eqb c "013"%char then true
      else if Js.is_space c then ws_to_line_end s' else false
  end.

Definition result_tokens : list string := ["1-0"; "0-1"; "1/2-1/2"; "*"].

Definition token_at (s : string) : option string :=
  find (fun t => String.prefix t s &&
                 ws_to_line_end (String.substring (String.length t)
                                   (String.length s - String.length t) s))
       result_tokens.

Fixpoint extractResult (s : string) : option string :=
  match s with
  | EmptyString => None
  | String c s' =>
      if Js.is_space c then
        match token_at (Js.trim_left s') with
        | Some t => Some t
        | None => extractResult s'
        end
      else extractResult s'
  end.

(** [extractGameId]: the first match of the regular expression made of
    an opening bracket, ID, [\s+], a double quote, a captured run of
    characters other than the double quote, a double quote and a closing
    bracket. *)
Fixpoint take_nonquote (s : string) : string * string :=
  match s with
  | EmptyString => (EmptyString, EmptyString)
  | String c s' =>
      if Ascii.eqb c QUOTE then (EmptyString, s)
      else let '(v, r) := take_nonquote s' in (String c v, r)
  end.

Definition id_at (s : string) : option string :=
  match s with
  | String "[" (String "I" (String "D" (String w rest))) =>
      if Js.is_space w then
        match Js.trim_left rest with
        | String q r =>
            if Ascii.eqb q QUOTE then
              match take_nonquote r with
              | (String _ _ as v, String q' (String "]" _)) =>
                  if Ascii.eqb q' QUOTE then Some v else None
              | _ => None
              end
            else None
        | EmptyString => None
        end
      else None
  | _ => None
  end.

Fixpoint extractGameId (s : string) : option string :=
  match id_at s with
  | Some v => Some v
  | None => match s with EmptyString => None | String _ s' => extractGameId s' end
  end.

(** [normalizeFen]: the first four fields and a fixed [0 1]. *)
Definition normalizeFen (fen : string) : string :=
  let parts := Js.split " " fen in
  let part k := match nth_error parts k with Some p => p | None => "undefined" end in
  part 0 ++ " " ++ part 1 ++ " " ++ part 2 ++ " " ++ part 3 ++ " 0 1".

Section Engine.
(** The chess.js engine: a board, its FEN, [move(san)] ([None] when it
    throws) and [loadPgn] followed by [history()] ([None] when [loadPgn]
    throws). *)
Context {Board : Type} (newBoard : Board) (fen : Board -> string)
  (move : Board -> string -> option Board) (loadPgn : string -> option (list string)).

Definition record (b : Board) (result gameId : string) : ChunkWriter.position :=
  ChunkWriter.mkPosition (normalizeFen (fen b)) result (Some gameId).

(** The replay loop and the final position; an exception thrown by
    [replayChess.move] lands in the [catch], which returns [positions]
    as filled so far. *)
Fixpoint replay (b : Board) (history : list string) (result gameId : string)
  (positions : list ChunkWriter.position) : list ChunkWriter.position :=
  match history with
  | [] => (positions ++ [record b result gameId])%list
  | san :: h' =>
      let positions' := (positions ++ [record b result gameId])%list in
      match move b san with
      | None => positions'
      | Some b' => replay b' h' result gameId positions'
      end
  end.

Definition processGame (gameText : string) : list ChunkWriter.position :=
  match extractResult gameText with
  | None => []
  | Some result =>
      if String.eqb result "*" then [] else
      match extractGameId gameText with
      | None => []
      | Some gameId =>
          match loadPgn gameText with
          | None => []
          | Some history => replay newBoard history result gameId []
          end
      end
  end.
End Engine.

End FenWorker.

(* ------------------------------------------------------------------ *)
(** ** Game splitter: the ['data'] and ['end'] handlers of the input
    stream in [FenProcessor.processPgnFileMultithread] (src/fen.js) *)

Module GameSplitter.

(** The closure variables of the handlers: [buffer], [currentGame],
    [inGame], [currentBatch] and the batches pushed on [batchQueue], in
    order (the queue as seen by a consumer that never shifts). *)
Record splitter := mkSplitter {
  buffer : string; currentGame : string; inGame : bool;
  currentBatch : list string; batchQueue : list (list string) }.

Definition initial : splitter := mkSplitter "" "" false [] [].

(** [this.batchSize] *)
Definition batchSize : nat := 16.

(** [line.startsWith('[ID ')] *)
Definition is_id_line (line : string) : bool := String.prefix "[ID " line.

(** [currentGame.trim()] is truthy. *)
Definition has_text (s : string) : bool := negb (String.eqb (Js.trim s) "").

(** One iteration of the [for (const line of lines)] loop of the ['data']
    handler. *)
Definition on_line (bs : nat) (st : splitter) (line : string) : splitter :=
  if is_id_line line then
    let '(cb, q) :=
      if inGame st && has_text (currentGame st) then
        let cb := (currentBatch st ++ [currentGame st])%list in
        if (bs <=? length cb)%nat then ([], (batchQueue st ++ [cb])%list)
        else (cb, batchQueue st)
      else (currentBatch st, batchQueue st) in
    mkSplitter (buffer st) (line ++ Js.NL) true cb q
  else
    mkSplitter (buffer st) (currentGame st ++ line ++ Js.NL) (inGame st)
      (currentBatch st) (batchQueue st).

(** The ['data'] handler: [buffer += chunk; lines = buffer.split('\n');
    buffer = lines.pop() || ''], then the loop over [lines]. *)
Definition on_data (bs : nat) (st : splitter) (chunk : string) : splitter :=
  let lines := Js.split "010"%char (buffer st ++ chunk) in
  let st1 := mkSplitter (last lines "") (currentGame st) (inGame st)
               (currentBatch st) (batchQueue st) in
  fold_left (on_line bs) (removelast lines) st1.

(** The ['end'] handler: the trimmed remainder is a last line, handled
    without the batch-size test; then the open game and the open batch
    are pushed. *)
Definition on_end (st : splitter) : splitter :=
  let st1 :=
    if has_text (buffer st) then
      let line := Js.trim (buffer st) in
      if is_id_line line then
        let cb :=
          if inGame st && has_text (currentGame st)
          then (currentBatch st ++ [currentGame st])%list
          else currentBatch st in
        mkSplitter (buffer st) (line ++ Js.NL) true cb (batchQueue st)
      else
        mkSplitter (buffer st) (currentGame st ++ line ++ Js.NL) (inGame st)
          (currentBatch st) (batchQueue st)
    else st in
  let cb :=
    if inGame st1 && has_text (currentGame st1)
    then (currentBatch st1 ++ [currentGame st1])%list
    else currentBatch st1 in
  mkSplitter (buffer st1) (currentGame st1) (inGame st1) cb
    (if (0 <? length cb)%nat then (batchQueue st1 ++ [cb])%list else batchQueue st1).

(** The batches handed to the workers when the stream delivers [chunks]. *)
Definition extract_batches (bs : nat) (chunks : list string) : list (list string) :=
  batchQueue (on_end (fold_left (on_data bs) chunks initial)).

End GameSplitter.

(* ------------------------------------------------------------------ *)
(** ** Batch handler of the extraction worker: the ['message'] listener
    (src/lib/fen-worker.js) *)

Module WorkerBatch.

Section Handler.
Context {Board : Type} (newBoard : Board) (fen : Board -> string)
  (move : Board -> string -> option Board) (loadPgn : string -> option (list string)).

(** The [for] loop over [games]: an empty game text is skipped, every
    other game adds its positions and counts as processed. *)
Fixpoint handle (games : list string) (allPositions : list ChunkWriter.position)
  (processedGames : nat) : list ChunkWriter.position * nat :=
  match games with
  | [] => (allPositions, processedGames)
  | g :: gs =>
      if String.eqb g "" then handle gs allPositions processedGames
      else handle gs (allPositions ++ FenWorker.processGame newBoard fen move loadPgn g)%list
             (S processedGames)
  end.

(** The [result] of the success message: [positions] and
    [processedGames]. *)
Definition handleBatch (games : list string) : list ChunkWriter.position * nat :=
  handle games [] 0.
End Handler.

End WorkerBatch.

(* ------------------------------------------------------------------ *)
(** ** Output files: [sort10PlusOccByOccurrence], [generateFinalFiles]
    and [calculateFinalStats] (src/fen.js) *)

Module FinalOutput.
Import ChunkSorter.

(** [path.join(dir, name)] for a directory path in normal form. *)
Definition path_join (dir name : string) : string := dir ++ "/" ++ name.

Definition header : string :=
  "fen" ++ Js.TAB ++ "occurrence" ++ Js.TAB ++ "white" ++ Js.TAB ++ "black" ++
  Js.TAB ++ "draw" ++ Js.NL.




(** The lines of a file after its first, each with ['\n']; nothing when
    the file does not exist. *)
Definition tail_lines (f : fs) (p : string) : string :=
  match fs_lookup f p with
  | Some c => render (tl (readline_lines c))
  | None => ""
  end.

(** The raw bytes of a file piped into a stream; nothing when it does not
    exist. *)
Definition piped (f : fs) (p : string) : string :=
  match fs_lookup f p with Some c => c | None => "" end.

Definition partition_file (tempDir : string) (i : nat) : string :=
  path_join tempDir (Js.number_to_string (Z.of_nat i) ++ "occ.tmp").

Definition generateFinalFiles (tempDir outputDir : string) (f : fs) : fs :=
  let wo := path_join outputDir "fens-withoutone.tsv" in
  let all := path_join outputDir "fens-all.tsv" in
  let f1 := fs_write f wo
              (header ++ tail_lines f (path_join outputDir "fens-onlyrecurrent.tsv") ++
               String.concat "" (map (fun i => piped f (partition_file tempDir i))
                                   [9; 8; 7; 6; 5; 4; 3; 2]%nat)) in
  fs_write f1 all
    (header ++ tail_lines f1 wo ++ piped f1 (path_join tempDir "1occ.tmp")).

(** [countLines]: 0 for a missing file, else the readline lines less the
    header, at least 0. *)
Definition countLines (f : fs) (p : string) : nat :=
  match fs_lookup f p with
  | None => 0
  | Some c => length (readline_lines c) - 1
  end.

Record final_stats := mkFinalStats {
  allCount : nat; withoutOneCount : nat; onlyRecurrentCount : nat }.

Definition calculateFinalStats (outputDir : string) (f : fs) : final_stats :=
  mkFinalStats (countLines f (path_join outputDir "fens-all.tsv"))
    (countLines f (path_join outputDir "fens-withoutone.tsv"))
    (countLines f (path_join outputDir "fens-onlyrecurrent.tsv")).

End FinalOutput.

(* ------------------------------------------------------------------ *)
(** ** Chunk listing: [processAllChunks] and [getSortedFiles]
    (src/fen.js) *)

Module ChunkFiles.
Import ChunkSorter FinalOutput.

Definition is_digit (c : ascii) : bool :=
  (48 <=? nat_of_ascii c)%nat && (nat_of_ascii c <=? 57)%nat.

Fixpoint take_digits (s : string) : string * string :=
  match s with
  | EmptyString => (EmptyString, EmptyString)
  | String c s' =>
      if is_digit c then let '(d, r) := take_digits s' in (String c d, r)
      else (EmptyString, s)
  end.

(** The regular expression [chunk_(\d+)] followed by [suffix], matched at
    the start of [s]; the suffixes of the code begin with a non-digit, so
    the greedy digit run is the only candidate. *)
Definition match_at (suffix s : string) : option string :=
  if String.prefix "chunk_" s then
    let '(d, r) := take_digits (String.substring 6 (String.length s - 6) s) in
    match d with
    | EmptyString => None
    | _ => if String.prefix suffix r then Some d else None
    end
  else None.

(** [name.match(re)?.[1]]: the first position where the expression
    matches. *)
Fixpoint chunk_match (suffix s : string) : option string :=
  match match_at suffix s with
  | Some d => Some d
  | None => match s with EmptyString => None | String _ s' => chunk_match suffix s' end
  end.

(** [parseInt(name.match(re)?.[1] || 0)] *)
Definition chunk_number (suffix name : string) : option Z :=
  Js.parseInt (match chunk_match suffix name with Some d => d | None => "0" end).

(** The comparator [numA - numB]. *)
Definition by_chunk_number (suffix : string) (a b : string) : comparison :=
  match chunk_number suffix a, chunk_number suffix b with
  | Some x, Some y => Z.compare x y
  | _, _ => Eq
  end.

(** [s.includes(pat)] and [s.endsWith(suf)] *)
Definition includes (pat s : string) : bool :=
  match String.index 0 pat s with Some _ => true | None => false end.
Definition ends_with (suf s : string) : bool :=
  (String.length suf <=? String.length s)%nat &&
  String.eqb (String.substring (String.length s - String.length suf)
                (String.length suf) s) suf.

Definition select_chunk (file : string) : bool :=
  String.prefix "chunk_" file && ends_with ".tmp" file && negb (includes "_sorted" file).

Definition chunkFiles (tempDir : string) (names : list string) : list string :=
  map (path_join tempDir)
    (StableSort.sort (by_chunk_number ".tmp") (filter select_chunk names)).

(** How [processAllChunks] ends: the returned [sortedFiles] and the
    directory, a rejection, or a loop that never ends. *)
Inductive chunks_outcome :=
| AllSorted (sortedFiles : list string) (f : fs)
| SortFailed
| NeverEnds.

(** One [Promise.all] over a batch.  The chunk files of a batch are
    distinct and each call touches only its own two paths, so running the
    calls one after the other gives the same directory. *)
Fixpoint run_batch (f : fs) (batch : list string) : option (list string * fs) :=
  match batch with
  | [] => Some ([], f)
  | cf :: b' =>
      match processSingleChunk f cf with
      | None => None
      | Some (s, f') =>
          match run_batch f' b' with
          | None => None
          | Some (ss, f'') => Some (s :: ss, f'')
          end
      end
  end.

(** The [for (i = 0; i < n; i += step)] loop over the chunk files. *)
Fixpoint sort_batches (fuel step : nat) (files : list string) (f : fs) : chunks_outcome :=
  match files with
  | [] => AllSorted [] f
  | _ :: _ =>
      match fuel with
      | O => NeverEnds
      | S fuel' =>
          match run_batch f (firstn step files) with
          | None => SortFailed
          | Some (ss, f') =>
              match sort_batches fuel' step (skipn step files) f' with
              | AllSorted ss' f'' => AllSorted (ss ++ ss') f''
              | o => o
              end
          end
      end
  end.

(** [processAllChunks()]: [entries] is [readdirSync(tempDir)], [None]
    when the directory does not exist; [numWorkers] is [os.cpus().length]. *)
Definition processAllChunks (numWorkers : nat) (tempDir : string)
  (entries : option (list string)) (f : fs) : chunks_outcome :=
  match entries with
  | None => SortFailed
  | Some names =>
      let files := chunkFiles tempDir names in
      sort_batches (length files) (Nat.min numWorkers 32) files f
  end.

(** [getSortedFiles()]: [None] when it throws. *)
Definition getSortedFiles (tempDir : string) (entries : option (list string))
  : option (list string) :=
  match entries with
  | None => None
  | Some names =>
      match map (path_join tempDir)
              (StableSort.sort (by_chunk_number "_sorted.tmp")
                 (filter (includes "_sorted.tmp") names)) with
      | [] => None
      | files => Some files
      end
  end.

End ChunkFiles.

(* ================================================================== *)
(** * Properties *)

(** ** The collation is a total preorder *)

Module CollationFacts.
Import Collation.

Lemma lex_sym : forall a b, lex b a = CompOpp (lex a b).
Proof.
  induction a as [|x a IH]; destruct b as [|y b]; simpl; auto.
  rewrite (Nat.compare_antisym x y).
  destruct (Nat.compare x y); simpl; auto.
Qed.

Lemma lex_eq : forall a b, lex a b = Eq -> a = b.
Proof.
  induction a as [|x a IH]; destruct b as [|y b]; simpl; try discriminate; auto.
  destruct (Nat.compare x y) eqn:E; try discriminate.
  apply Nat.compare_eq in E; subst. intros H; f_equal; auto.
Qed.

Lemma lex_refl : forall a, lex a a = Eq.
Proof. induction a; simpl; auto. rewrite Nat.compare_refl; auto. Qed.

Lemma lex_lt_trans : forall a b c, lex a b = Lt -> lex b c = Lt -> lex a c = Lt.
Proof.
  induction a as [|x a IH]; destruct b as [|y b]; destruct c as [|z c];
    simpl; try discriminate; auto.
  destruct (Nat.compare x y) eqn:E1; try discriminate;
  destruct (Nat.compare y z) eqn:E2; try discriminate; intros H1 H2.
  - apply Nat.compare_eq in E1; apply Nat.compare_eq in E2; subst.
    rewrite Nat.compare_refl; eauto.
  - apply Nat.compare_eq in E1; subst. rewrite E2; auto.
  - apply Nat.compare_eq in E2; subst. rewrite E1; auto.
  - apply Nat.compare_lt_iff in E1; apply Nat.compare_lt_iff in E2.
    replace (Nat.compare x z) with Lt; auto.
    symmetry; apply Nat.compare_lt_iff; lia.
Qed.

Lemma localeCompare_sym : forall a b,
  localeCompare b a = CompOpp (localeCompare a b).
Proof.
  intros a b; unfold localeCompare.
  rewrite (lex_sym (primary_keys a)), (lex_sym (tertiary_keys a)).
  destruct (lex (primary_keys a) (primary_keys b)); reflexivity.
Qed.

Lemma localeCompare_eq_keys : forall a b, localeCompare a b = Eq ->
  primary_keys a = primary_keys b /\ tertiary_keys a = tertiary_keys b.
Proof.
  intros a b; unfold localeCompare.
  destruct (lex (primary_keys a) (primary_keys b)) eqn:E; try discriminate.
  intros H; split; apply lex_eq; auto.
Qed.

Lemma localeCompare_eq_left : forall a b c, localeCompare a b = Eq ->
  localeCompare a c = localeCompare b c.
Proof.
  intros a b c H; apply localeCompare_eq_keys in H as [H1 H2].
  unfold localeCompare; rewrite H1, H2; reflexivity.
Qed.

Lemma localeCompare_lt_trans : forall a b c,
  localeCompare a b = Lt -> localeCompare b c = Lt -> localeCompare a c = Lt.
Proof.
  intros a b c; unfold localeCompare.
  destruct (lex (primary_keys a) (primary_keys b)) eqn:E1; try discriminate;
  destruct (lex (primary_keys b) (primary_keys c)) eqn:E2; try discriminate;
  intros H1 H2.
  - apply lex_eq in E1; apply lex_eq in E2. rewrite E1, E2, lex_refl.
    eauto using lex_lt_trans.
  - apply lex_eq in E1. rewrite E1, E2. reflexivity.
  - apply lex_eq in E2. rewrite <- E2, E1. reflexivity.
  - rewrite (lex_lt_trans _ _ _ E1 E2). reflexivity.
Qed.

Lemma localeCompare_le_trans : forall a b c,
  localeCompare a b <> Gt -> localeCompare b c <> Gt -> localeCompare a c <> Gt.
Proof.
  intros a b c H1 H2.
  destruct (localeCompare a b) eqn:E1; [| |congruence].
  - rewrite (localeCompare_eq_left _ _ _ E1); auto.
  - destruct (localeCompare b c) eqn:E2; [| |congruence].
    + assert (E3 : localeCompare c b = Eq) by (rewrite localeCompare_sym, E2; reflexivity).
      rewrite localeCompare_sym, (localeCompare_eq_left _ _ _ E3),
        localeCompare_sym, E1; discriminate.
    + rewrite (localeCompare_lt_trans _ _ _ E1 E2); discriminate.
Qed.

End CollationFacts.

(** ** The stable insertion sort *)

Module SortFacts.
Import StableSort.
Local Open Scope list_scope.

Section Facts.
Context {A : Type} (cmp : A -> A -> comparison).
Hypothesis cmp_sym : forall a b, cmp b a = CompOpp (cmp a b).
Hypothesis cmp_le_trans : forall a b c, le cmp a b -> le cmp b c -> le cmp a c.

Lemma not_lt_le : forall x y, cmp x y <> Lt -> le cmp y x.
Proof.
  unfold le; intros x y H; rewrite cmp_sym.
  destruct (cmp x y); simpl; congruence.
Qed.

Lemma le_not_lt : forall x y, le cmp y x -> cmp x y <> Lt.
Proof.
  unfold le; intros x y H; rewrite cmp_sym in H.
  destruct (cmp x y); simpl in *; congruence.
Qed.

Lemma insert_perm : forall x l, Permutation (insert cmp x l) (x :: l).
Proof.
  induction l as [|y l IH]; simpl; auto.
  destruct (cmp x y); auto;
    (eapply perm_trans; [apply perm_skip, IH | apply perm_swap]).
Qed.

Lemma sort_acc_perm : forall l acc, Permutation (sort_acc cmp acc l) (rev l ++ acc).
Proof.
  induction l as [|x l IH]; intros acc; simpl; auto.
  eapply perm_trans; [apply IH|].
  rewrite <- app_assoc; simpl.
  apply Permutation_app_head, insert_perm.
Qed.

Lemma sort_perm : forall l, Permutation (sort cmp l) l.
Proof.
  intros l; unfold sort.
  eapply perm_trans; [apply sort_acc_perm|].
  rewrite app_nil_r; apply Permutation_sym, Permutation_rev.
Qed.

Lemma insert_hd : forall x y l, le cmp y x -> HdRel (le cmp) y l ->
  HdRel (le cmp) y (insert cmp x l).
Proof.
  intros x y [|z l] Hyx Hd; simpl; auto.
  destruct (cmp x z); auto; inversion Hd; auto.
Qed.

Lemma insert_sorted : forall x l, Sorted (le cmp) l -> Sorted (le cmp) (insert cmp x l).
Proof.
  induction l as [|y l IH]; intros Hs; simpl; auto.
  destruct (cmp x y) eqn:E.
  - apply Sorted_inv in Hs as [Hs Hd].
    constructor; auto. apply insert_hd; auto. apply not_lt_le; congruence.
  - constructor; auto. constructor. unfold le; congruence.
  - apply Sorted_inv in Hs as [Hs Hd].
    constructor; auto. apply insert_hd; auto. apply not_lt_le; congruence.
Qed.

Lemma sort_acc_sorted : forall l acc, Sorted (le cmp) acc -> Sorted (le cmp) (sort_acc cmp acc l).
Proof.
  induction l as [|x l IH]; intros acc H; simpl; auto using insert_sorted.
Qed.

Lemma sort_sorted : forall l, Sorted (le cmp) (sort cmp l).
Proof. intros l; apply sort_acc_sorted; constructor. Qed.

Lemma insert_after_all : forall x acc, (forall y, In y acc -> le cmp y x) ->
  insert cmp x acc = acc ++ [x].
Proof.
  induction acc as [|y acc IH]; intros H; simpl; auto.
  destruct (cmp x y) eqn:E.
  - rewrite IH; auto with datatypes.
  - exfalso; apply (le_not_lt x y); auto with datatypes.
  - rewrite IH; auto with datatypes.
Qed.

Lemma strongly_sorted_app_le : forall acc x l,
  StronglySorted (le cmp) (acc ++ x :: l) -> forall y, In y acc -> le cmp y x.
Proof.
  induction acc as [|z acc IH]; intros x l H y Hin; simpl in *; [contradiction|].
  apply StronglySorted_inv in H as [H Hall].
  destruct Hin as [<-|Hin]; eauto.
  rewrite Forall_forall in Hall; apply Hall; auto with datatypes.
Qed.

Lemma sort_acc_sorted_id : forall l acc, Sorted (le cmp) (acc ++ l) ->
  sort_acc cmp acc l = acc ++ l.
Proof.
  induction l as [|x l IH]; intros acc H; simpl; [symmetry; apply app_nil_r|].
  assert (Hle : forall y, In y acc -> le cmp y x).
  { apply strongly_sorted_app_le with (l := l).
    apply Sorted_StronglySorted; auto; intros a b c; apply cmp_le_trans. }
  rewrite (insert_after_all x acc Hle).
  assert (H' : Sorted (le cmp) ((acc ++ [x]) ++ l)) by (rewrite <- app_assoc; exact H).
  rewrite (IH _ H'), <- app_assoc; reflexivity.
Qed.

Lemma sort_sorted_id : forall l, Sorted (le cmp) l -> sort cmp l = l.
Proof. intros l H; apply sort_acc_sorted_id; exact H. Qed.

Lemma sort_idempotent : forall l, sort cmp (sort cmp l) = sort cmp l.
Proof. intros l; apply sort_sorted_id, sort_sorted. Qed.

End Facts.
End SortFacts.

(** ** String lemmas *)

Module StringFacts.

Lemma length_app : forall a b, String.length (a ++ b) = (String.length a + String.length b)%nat.
Proof. induction a; simpl; auto. Qed.

Lemma length_substring : forall s n m,
  String.length (String.substring n m s) = Nat.min m (String.length s - n).
Proof.
  induction s as [|c s IH]; intros [|n] [|m]; simpl; rewrite ?IH; auto; lia.
Qed.

Lemma replace_first_changes : forall s,
  String.index 0 ".tmp" s <> None ->
  ChunkSorter.replace_first s ".tmp" "_sorted.tmp" <> s.
Proof.
  intros s Hidx Heq.
  unfold ChunkSorter.replace_first in Heq.
  destruct (String.index 0 ".tmp" s) as [i|] eqn:E; [|congruence].
  pose proof (index_correct1 _ _ _ _ E) as Hsub.
  assert (Hlen : (i + 4 <= String.length s)%nat).
  { assert (H4 := f_equal String.length Hsub).
    rewrite length_substring in H4.
    change (String.length ".tmp") with 4%nat in H4.
    pose proof (Nat.le_min_r 4 (String.length s - i)); lia. }
  apply (f_equal String.length) in Heq.
  rewrite !length_app, !length_substring in Heq.
  change (String.length ".tmp") with 4%nat in Heq.
  change (String.length "_sorted.tmp") with 11%nat in Heq.
  rewrite Nat.min_l in Heq by lia. rewrite Nat.min_l in Heq by lia. lia.
Qed.

End StringFacts.

(** ** Chunk sorter facts *)

Module ChunkSorterFacts.
Import ChunkSorter.
Local Open Scope list_scope.

(** A line as [readline] produces it: no LF and no CR. *)
Fixpoint no_break (s : string) : bool :=
  match s with
  | EmptyString => true
  | String c s' =>
      negb (Ascii.eqb c "010"%char) && negb (Ascii.eqb c "013"%char) && no_break s'
  end.

Definition seg_list (s : string) : list string :=
  fst (segments s) :: snd (segments s).

Lemma segments_app_nl : forall l rest, no_break l = true ->
  segments (l ++ String "010"%char rest) = (l, seg_list rest).
Proof.
  unfold seg_list.
  induction l as [|c l IH]; intros rest H; simpl.
  - destruct (segments rest); reflexivity.
  - simpl in H. apply andb_prop in H as [H Hl]; apply andb_prop in H as [Hn Hr].
    apply negb_true_iff in Hn, Hr. rewrite Hn, Hr, IH; auto.
Qed.

Lemma seg_list_render : forall ls, Forall (fun l => no_break l = true) ls ->
  seg_list (render ls) = ls ++ [""].
Proof.
  induction ls as [|l ls IH]; intros H; [reflexivity|].
  inversion H; subst. unfold seg_list at 1; simpl render.
  rewrite segments_app_nl by auto; simpl. rewrite IH; auto.
Qed.

Lemma drop_empty_last_app : forall ls, drop_empty_last (ls ++ [""]) = ls.
Proof.
  induction ls as [|l ls IH]; [reflexivity|].
  simpl. rewrite IH. destruct ls; reflexivity.
Qed.

Lemma readline_render : forall ls, Forall (fun l => no_break l = true) ls ->
  readline_lines (render ls) = ls.
Proof.
  intros ls H. unfold readline_lines.
  pose proof (seg_list_render ls H) as E; unfold seg_list in E.
  destruct (segments (render ls)); simpl in E; rewrite E.
  apply drop_empty_last_app.
Qed.

Lemma segments_no_break : forall n s, (String.length s <= n)%nat ->
  Forall (fun l => no_break l = true) (seg_list s).
Proof.
  unfold seg_list.
  induction n as [|n IH]; intros s Hlen.
  - destruct s; simpl in *; [repeat constructor | lia].
  - destruct s as [|c s]; simpl; [repeat constructor|].
    simpl in Hlen.
    destruct (Ascii.eqb c "010"%char) eqn:En.
    + specialize (IH s ltac:(lia)). destruct (segments s); simpl in *.
      constructor; auto.
    + destruct (Ascii.eqb c "013"%char) eqn:Er.
      * destruct s as [|d s'].
        -- repeat constructor.
        -- destruct (Ascii.eqb d "010"%char).
           ++ assert (Hl : (String.length s' <= n)%nat) by (simpl in Hlen; lia).
              specialize (IH s' Hl). destruct (segments s'); simpl in *.
              constructor; auto.
           ++ specialize (IH (String d s') ltac:(lia)).
              destruct (segments (String d s')); simpl in *.
              constructor; auto.
      * specialize (IH s ltac:(lia)). destruct (segments s) as [h t]; simpl in *.
        inversion IH; subst. constructor; auto. simpl. rewrite En, Er; auto.
Qed.

Lemma drop_empty_last_incl : forall l x, In x (drop_empty_last l) -> In x l.
Proof.
  induction l as [|a l IH]; simpl; auto.
  intros x. destruct l as [|b l].
  - destruct (String.eqb a ""); simpl; tauto.
  - simpl in *. intros [H|H]; auto.
Qed.

Lemma readline_no_break : forall s,
  Forall (fun l => no_break l = true) (readline_lines s).
Proof.
  intros s. pose proof (segments_no_break (String.length s) s (le_n _)) as H.
  unfold seg_list in H. unfold readline_lines.
  destruct (segments s) as [h t]; simpl in *.
  rewrite Forall_forall in *. intros x Hx. apply H, drop_empty_last_incl; auto.
Qed.

Lemma line_cmp_sym : forall a b, line_cmp b a = CompOpp (line_cmp a b).
Proof. intros; apply CollationFacts.localeCompare_sym. Qed.

Lemma line_cmp_le_trans : forall a b c,
  StableSort.le line_cmp a b -> StableSort.le line_cmp b c -> StableSort.le line_cmp a c.
Proof. unfold StableSort.le; intros; eapply CollationFacts.localeCompare_le_trans; eauto. Qed.

Lemma sorted_lines_props : forall content,
  Forall (fun l => no_break l = true /\ nonblank l = true) (sorted_lines content).
Proof.
  intros content. unfold sorted_lines.
  eapply Permutation_Forall; [apply Permutation_sym, SortFacts.sort_perm|].
  apply Forall_forall. intros x Hx.
  apply filter_In in Hx as [Hx Hnb]. split; auto.
  pose proof (readline_no_break content) as H; rewrite Forall_forall in H; auto.
Qed.

Lemma sorted_lines_sorted : forall content,
  Sorted (StableSort.le line_cmp) (sorted_lines content).
Proof.
  intros; apply SortFacts.sort_sorted; exact line_cmp_sym.
Qed.

Lemma sorted_lines_perm : forall content,
  Permutation (sorted_lines content) (filter nonblank (readline_lines content)).
Proof. intros; apply SortFacts.sort_perm. Qed.

End ChunkSorterFacts.

Module ChunkSorterClaims.
Import ChunkSorter ChunkSorterFacts.
Local Open Scope list_scope.

Lemma filter_all : forall {A} (p : A -> bool) l,
  Forall (fun x => p x = true) l -> filter p l = l.
Proof.
  intros A p l H; induction H as [|x l Hx _ IH]; simpl; [reflexivity|].
  rewrite Hx, IH; reflexivity.
Qed.

Lemma fs_lookup_remove : forall f p q,
  fs_lookup (fs_remove f p) q = if String.eqb q p then None else fs_lookup f q.
Proof.
  induction f as [|[r c] f IH]; intros p q; simpl.
  - destruct (String.eqb q p); reflexivity.
  - destruct (String.eqb_spec r p) as [Erp|Erp]; simpl.
    + subst r. rewrite IH. destruct (String.eqb q p); reflexivity.
    + rewrite IH. destruct (String.eqb_spec q r) as [Eqr|Eqr]; auto.
      subst r. destruct (String.eqb_spec q p); congruence.
Qed.

Lemma fs_lookup_write : forall f p c q,
  fs_lookup (fs_write f p c) q = if String.eqb q p then Some c else fs_lookup f q.
Proof.
  intros f p c q; unfold fs_write; simpl.
  rewrite fs_lookup_remove. destruct (String.eqb q p); reflexivity.
Qed.

(** C9: re-sorting the bytes of an already sorted chunk, [sortedContent c],
    gives the same bytes again: [sortedContent] is idempotent. *)
Theorem sortedContent_idempotent : forall content,
  sortedContent (sortedContent content) = sortedContent content.
Proof.
  intros content. unfold sortedContent at 1. unfold sorted_lines at 1.
  unfold sortedContent.
  pose proof (sorted_lines_props content) as Hp.
  rewrite readline_render.
  2:{ eapply Forall_impl; [|exact Hp]; simpl; tauto. }
  rewrite filter_all.
  2:{ eapply Forall_impl; [|exact Hp]; simpl; tauto. }
  rewrite SortFacts.sort_sorted_id; [reflexivity | exact line_cmp_sym
  | exact line_cmp_le_trans | apply sorted_lines_sorted].
Qed.

(** A chunk with two positions whose keys differ only in letter case. *)
Definition upper_line : string := "K7/8/8/8/8/8/8/k7 w - - 0 1|1-0".
Definition lower_line : string := "k7/8/8/8/8/8/8/K7 w - - 0 1|0-1".
Definition case_chunk : fs := [("chunk_0.tmp", render [upper_line; lower_line])].

(** C6 (counterexample): the sorted chunk puts the lower-case key first,
    as [localeCompare] orders it, although it is the larger one in byte
    order. *)
Lemma processSingleChunk_not_byte_order :
  processSingleChunk case_chunk "chunk_0.tmp"
    = Some ("chunk_0_sorted.tmp", [("chunk_0_sorted.tmp", render [lower_line; upper_line])])
  /\ String.compare (sort_key lower_line) (sort_key upper_line) = Gt.
Proof. split; vm_compute; reflexivity. Qed.

(** C6 (amended): on a chunk path containing [.tmp], [processSingleChunk]
    writes a different file, the [_sorted.tmp] one, whose lines are the
    non-blank lines of the input, stably sorted so that consecutive keys
    are non-decreasing under [localeCompare] (not byte order), and the
    input file is deleted. *)
Theorem processSingleChunk_spec : forall f chunkFile content,
  fs_lookup f chunkFile = Some content ->
  String.index 0 ".tmp" chunkFile <> None ->
  exists f',
    processSingleChunk f chunkFile
      = Some (replace_first chunkFile ".tmp" "_sorted.tmp", f')
    /\ replace_first chunkFile ".tmp" "_sorted.tmp" <> chunkFile
    /\ fs_lookup f' chunkFile = None
    /\ fs_lookup f' (replace_first chunkFile ".tmp" "_sorted.tmp")
         = Some (render (sorted_lines content))
    /\ Sorted (StableSort.le line_cmp) (sorted_lines content)
    /\ Permutation (sorted_lines content) (filter nonblank (readline_lines content)).
Proof.
  intros f chunkFile content Hf Hidx.
  pose proof (StringFacts.replace_first_changes chunkFile Hidx) as Hne.
  unfold processSingleChunk. rewrite Hf.
  eexists; split; [reflexivity|]. split; [exact Hne|].
  rewrite !fs_lookup_remove, !fs_lookup_write, !String.eqb_refl.
  destruct (String.eqb_spec chunkFile (replace_first chunkFile ".tmp" "_sorted.tmp"))
    as [E|_]; [congruence|].
  destruct (String.eqb_spec (replace_first chunkFile ".tmp" "_sorted.tmp") chunkFile)
    as [E|_]; [congruence|].
  split; [reflexivity|]. split; [reflexivity|].
  split; [apply sorted_lines_sorted | apply sorted_lines_perm].
Qed.

Lemma processSingleChunk_spec_witness :
  fs_lookup case_chunk "chunk_0.tmp" = Some (render [upper_line; lower_line])
  /\ String.index 0 ".tmp" "chunk_0.tmp" <> None
  /\ exists f',
    processSingleChunk case_chunk "chunk_0.tmp"
      = Some (replace_first "chunk_0.tmp" ".tmp" "_sorted.tmp", f')
    /\ replace_first "chunk_0.tmp" ".tmp" "_sorted.tmp" <> "chunk_0.tmp"
    /\ fs_lookup f' "chunk_0.tmp" = None
    /\ fs_lookup f' (replace_first "chunk_0.tmp" ".tmp" "_sorted.tmp")
         = Some (render (sorted_lines (render [upper_line; lower_line])))
    /\ Sorted (StableSort.le line_cmp) (sorted_lines (render [upper_line; lower_line]))
    /\ Permutation (sorted_lines (render [upper_line; lower_line]))
         (filter nonblank (readline_lines (render [upper_line; lower_line]))).
Proof.
  assert (H1 : fs_lookup case_chunk "chunk_0.tmp" = Some (render [upper_line; lower_line]))
    by reflexivity.
  assert (H2 : String.index 0 ".tmp" "chunk_0.tmp" <> None) by (vm_compute; discriminate).
  split; [exact H1|]. split; [exact H2|].
  exact (processSingleChunk_spec case_chunk "chunk_0.tmp" _ H1 H2).
Defined.

End ChunkSorterClaims.

(** ** Chunk rotation *)

Module ChunkWriterFacts.
Import ChunkWriter.
Local Open Scope list_scope.

Definition inv (cs : nat) (st : state) : Prop :=
  chunkSize st = cs
  /\ length (currentChunk st) = positionsInCurrentChunk st
  /\ (positionsInCurrentChunk st <= cs)%nat
  /\ Forall (fun c => length c = cs) (closedChunks st).

Section Rotation.
Variable cs : nat.
Hypothesis cs_pos : (0 < cs)%nat.

Lemma inv_start : inv cs (start cs).
Proof. repeat split; simpl; auto; lia. Qed.

Lemma inv_write_one : forall st p, inv cs st -> inv cs (write_one st p).
Proof.
  intros [csz ci pic pp closed cur idx] p (Hcs & Hlen & Hle & Hall); simpl in *.
  subst csz. unfold write_one; simpl.
  destruct (Nat.leb_spec cs pic) as [Hge|Hlt]; simpl.
  - repeat split; simpl; try lia.
    apply Forall_app; split; auto. constructor; auto. lia.
  - repeat split; simpl; auto; try lia.
    rewrite length_app; simpl; lia.
Qed.

Lemma inv_writePositionsToChunk : forall ps st,
  inv cs st -> inv cs (writePositionsToChunk st ps).
Proof.
  unfold writePositionsToChunk.
  induction ps as [|p ps IH]; intros st H; simpl; auto using inv_write_one.
Qed.

Lemma inv_write_batches : forall bs st,
  inv cs st -> inv cs (write_batches st bs).
Proof.
  unfold write_batches.
  induction bs as [|b bs IH]; intros st H; simpl; auto using inv_writePositionsToChunk.
Qed.

End Rotation.

(** Five positions posted in one batch. *)
Definition five_positions : list position :=
  map (fun f => mkPosition f "1-0" (Some "g1")) ["a"; "b"; "c"; "d"; "e"].

(** C5: with a positive [chunkSize], whatever batches of positions are
    written, every chunk file but the last holds exactly [chunkSize] lines
    and the last at most [chunkSize]; with [chunkSize = 2] and five
    positions the chunk sizes are [2; 2; 1]. *)
Theorem rotation_invariant : forall cs batches,
  (0 < cs)%nat ->
  Forall (fun c => length c = cs) (removelast (chunk_files (write_batches (start cs) batches)))
  /\ (length (last (chunk_files (write_batches (start cs) batches)) []) <= cs)%nat
  /\ map (@length string) (chunk_files (write_batches (start 2) [five_positions])) = [2; 2; 1]%nat.
Proof.
  intros cs batches Hcs.
  destruct (inv_write_batches cs Hcs batches (start cs) (inv_start cs Hcs))
    as (_ & Hlen & Hle & Hall).
  unfold chunk_files. rewrite removelast_last, last_last.
  split; [exact Hall|]. split; [lia|]. reflexivity.
Qed.

Lemma rotation_invariant_witness :
  (0 < 2)%nat
  /\ Forall (fun c => length c = 2%nat) (removelast (chunk_files (write_batches (start 2) [five_positions])))
  /\ (length (last (chunk_files (write_batches (start 2) [five_positions])) []) <= 2)%nat
  /\ map (@length string) (chunk_files (write_batches (start 2) [five_positions])) = [2; 2; 1]%nat.
Proof.
  split; [lia|]. apply (rotation_invariant 2 [five_positions]). lia.
Defined.

End ChunkWriterFacts.

(** ** Phase-1 merge on the chunk format *)

Module MergeWorkerClaims.
Import MergeWorker.
Local Open Scope list_scope.

(** The chunk files of the first scenario, one [fen|result] line per
    position as [writePositionsToChunk] writes them. *)
Definition chunkA : reader := ["e4fen|1-0"; "d4fen|0-1"].
Definition chunkB : reader := ["e4fen|1-0"; "e4fen|1/2-1/2"].
(** The same positions with chunk A in key order. *)
Definition chunkA_sorted : reader := ["d4fen|0-1"; "e4fen|1-0"].

(** C1: the phase-1 merge reads a [fen|result] line as [hash|fen]: the
    key is the FEN, the result lands in the [fen] field, and the remaining
    [result] is the whole line, so no white, black or draw counter moves.
    On chunks A and B it flushes three records, all with zero counts;
    with chunk A in key order, two records, still with zero counts. *)
Theorem phase1_scenario :
  kWayMergeRecords [chunkA; chunkB] true
    = [mkFlushed "e4fen" (Some "1-0") (mkStats 2 0 0 0);
       mkFlushed "d4fen" (Some "0-1") (mkStats 1 0 0 0);
       mkFlushed "e4fen" (Some "1/2-1/2") (mkStats 1 0 0 0)]
  /\ kWayMergeRecords [chunkA_sorted; chunkB] true
    = [mkFlushed "d4fen" (Some "0-1") (mkStats 1 0 0 0);
       mkFlushed "e4fen" (Some "1/2-1/2") (mkStats 3 0 0 0)].
Proof. split; vm_compute; reflexivity. Qed.

(** C2: two sorted chunks with one decided game each: the flushed records
    have [occurrence = 1] but [white + black + draw = 0]. *)
Theorem phase1_counts_lost :
  kWayMergeRecords [["d4fen|0-1"]; ["e4fen|1-0"]] true
    = [mkFlushed "d4fen" (Some "0-1") (mkStats 1 0 0 0);
       mkFlushed "e4fen" (Some "1-0") (mkStats 1 0 0 0)]
  /\ Forall (fun r => occurrence (f_stats r)
                      <> white (f_stats r) + black (f_stats r) + draw (f_stats r))%Z
       (kWayMergeRecords [["d4fen|0-1"]; ["e4fen|1-0"]] true).
Proof.
  split; [vm_compute; reflexivity|].
  vm_compute. repeat constructor; discriminate.
Qed.

(** C3: the lines written by a merge have six tab-separated fields, the
    hash, the [fen] property, and the four counts: after phase 1 the
    second field is the game result, after a later phase it is the text
    [undefined]. *)
Theorem merge_output_six_fields :
  output (kWayMergeToSingleFile ["d4fen|0-1"; "e4fen|1-0"] true)
    = ("d4fen" ++ Js.TAB ++ "0-1" ++ Js.TAB ++ "1" ++ Js.TAB ++ "0" ++ Js.TAB
      ++ "0" ++ Js.TAB ++ "0" ++ Js.NL
      ++ "e4fen" ++ Js.TAB ++ "1-0" ++ Js.TAB ++ "1" ++ Js.TAB ++ "0" ++ Js.TAB
      ++ "0" ++ Js.TAB ++ "0" ++ Js.NL)%string
  /\ output (kWayMergeToSingleFile
       [("e4fen" ++ Js.TAB ++ "1-0" ++ Js.TAB ++ "2" ++ Js.TAB ++ "1" ++ Js.TAB
        ++ "0" ++ Js.TAB ++ "1")%string] false)
    = ("e4fen" ++ Js.TAB ++ "undefined" ++ Js.TAB ++ "2" ++ Js.TAB ++ "1" ++ Js.TAB
      ++ "0" ++ Js.TAB ++ "1" ++ Js.NL)%string
  /\ Forall (fun r => length (Js.split "009"%char (output_line r)) = 6%nat)
       (kWayMergeRecords (map reader_lines ["d4fen|0-1"; "e4fen|1-0"]) true).
Proof. split; [|split]; vm_compute; [reflexivity | reflexivity | repeat constructor]. Qed.

End MergeWorkerClaims.

(** ** Final merge: the flushed records and their routing *)

Module FinalMergeFacts.
Import MergeWorker FinalMerge.
Local Open Scope list_scope.

(** The sink applied to a sequence of records, stopping at the first
    failure. *)
Fixpoint fold_opt {T : Type} (sink : record -> T -> option T) (o : option T)
  (L : list record) : option T :=
  match L with
  | [] => o
  | r :: L' => fold_opt sink (match o with Some a => sink r a | None => None end) L'
  end.

(** The lines written to the stream of key [k] (its first entry). *)
Fixpoint stream_lines (ps : streams) (k : string) : list string :=
  match ps with
  | [] => []
  | (k', ls) :: ps' => if String.eqb k' k then ls else stream_lines ps' k
  end.

Lemma fold_opt_none : forall T (sink : record -> T -> option T) L,
  fold_opt sink None L = None.
Proof. induction L; simpl; auto. Qed.

Lemma finish_fold : forall cur st (l : list record),
  exists L, finish keep cur st l = Some (l ++ L)
    /\ forall T (sink : record -> T -> option T) acc,
         finish sink cur st acc = fold_opt sink (Some acc) L.
Proof.
  intros [fen|] st l.
  - exists [mkRecord fen st]; split; reflexivity.
  - exists []; split; [rewrite app_nil_r|]; reflexivity.
Qed.

(** The final merge's control flow does not depend on the sink: it is
    the sink folded over the records a keeping sink collects. *)
Lemma final_loop_fold : forall fuel readers cur st (l : list record),
  exists L, final_loop keep fuel readers cur st l = Some (l ++ L)
    /\ forall T (sink : record -> T -> option T) acc,
         final_loop sink fuel readers cur st acc = fold_opt sink (Some acc) L.
Proof.
  induction fuel as [|fuel IH]; intros readers cur st l; cbn [final_loop].
  - apply finish_fold.
  - destruct (all_finished readers); [apply finish_fold|].
    destruct (StableSort.sort pos_cmp (collect 0 readers)) as [|[minFen i] cps'];
      [apply finish_fold|].
    set (mr := map snd (filter (fun p => String.eqb (fst p) minFen) ((minFen, i) :: cps'))).
    destruct cur as [fen|].
    + destruct (negb (String.eqb fen minFen)).
      * cbn [option_map keep]. destruct (absorb mr readers zero_stats) as [readers' st''] eqn:Ha.
        destruct (IH readers' (Some minFen) st'' (l ++ [mkRecord fen st])) as [L [H1 H2]].
        exists (mkRecord fen st :: L). split.
        -- rewrite H1, <- app_assoc; reflexivity.
        -- intros T sink acc; cbn [fold_opt].
           destruct (sink (mkRecord fen st) acc) as [a|]; cbn [option_map].
           ++ rewrite Ha. apply H2.
           ++ symmetry; apply fold_opt_none.
      * destruct (absorb mr readers st) as [readers' st''] eqn:Ha.
        destruct (IH readers' (Some minFen) st'' l) as [L [H1 H2]].
        exists L. split; [exact H1|]. intros T sink acc; apply H2.
    + destruct (absorb mr readers st) as [readers' st''] eqn:Ha.
      destruct (IH readers' (Some minFen) st'' l) as [L [H1 H2]].
      exists L. split; [exact H1|]. intros T sink acc; apply H2.
Qed.

Lemma kWayMergeFinal_fold : forall readers,
  kWayMergeFinal readers = fold_opt route (Some init_streams) (final_records readers).
Proof.
  intros readers. unfold kWayMergeFinal, final_records.
  destruct (final_loop_fold (fuel_for readers) readers None zero_stats []) as [L [H1 H2]].
  rewrite H1, H2. reflexivity.
Qed.

Lemma write_stream_some : forall ps key line, In key (map fst ps) ->
  exists ps', write_stream ps key line = Some ps'
    /\ map fst ps' = map fst ps
    /\ forall k, stream_lines ps' k
         = if String.eqb k key then stream_lines ps k ++ [line] else stream_lines ps k.
Proof.
  induction ps as [|[k0 ls] ps IH]; intros key line Hin; [destruct Hin|].
  simpl. destruct (String.eqb_spec k0 key) as [E|E].
  - subst k0. eexists; split; [reflexivity|]. split; [reflexivity|].
    intros k; simpl. destruct (String.eqb_spec key k), (String.eqb_spec k key);
      subst; congruence.
  - destruct Hin as [Hin|Hin]; [simpl in Hin; congruence|].
    destruct (IH key line Hin) as (ps' & H1 & H2 & H3).
    rewrite H1; simpl. eexists; split; [reflexivity|]. split; [simpl; congruence|].
    intros k; simpl. rewrite H3.
    destruct (String.eqb_spec k0 k), (String.eqb_spec k key); subst; congruence.
Qed.

Lemma write_stream_none : forall ps key line, ~ In key (map fst ps) ->
  write_stream ps key line = None.
Proof.
  induction ps as [|[k0 ls] ps IH]; intros key line Hin; [reflexivity|].
  simpl in *. destruct (String.eqb_spec k0 key) as [E|E]; [tauto|].
  rewrite IH; auto.
Qed.

Definition routable (keys : list string) (r : record) : Prop :=
  In (partition_key (occurrence (r_stats r))) keys.

Lemma fold_route_ok : forall L (ps : streams), Forall (routable (map fst ps)) L ->
  exists ps', fold_opt route (Some ps) L = Some ps'
    /\ map fst ps' = map fst ps
    /\ forall k, stream_lines ps' k
         = stream_lines ps k
           ++ map record_line
                (filter (fun r => String.eqb (partition_key (occurrence (r_stats r))) k) L).
Proof.
  induction L as [|r L IH]; intros ps H.
  - exists ps; split; [reflexivity|]. split; [reflexivity|].
    intros k; simpl; rewrite app_nil_r; reflexivity.
  - inversion H as [|? ? Hr HL]; subst.
    destruct (write_stream_some ps _ (record_line r) Hr) as (ps1 & E1 & K1 & L1).
    change (fold_opt route (Some ps) (r :: L)) with (fold_opt route (route r ps) L).
    assert (Er : route r ps = Some ps1) by exact E1. rewrite Er.
    rewrite <- K1 in HL. destruct (IH ps1 HL) as (ps' & E2 & K2 & L2).
    exists ps'. split; [exact E2|]. split; [congruence|].
    intros k. rewrite L2, L1. cbn [filter].
    destruct (String.eqb_spec k (partition_key (occurrence (r_stats r)))) as [Ek|Ek];
      destruct (String.eqb_spec (partition_key (occurrence (r_stats r))) k); try congruence;
      simpl; rewrite <- ?app_assoc; reflexivity.
Qed.

Lemma fold_route_fail : forall L (ps : streams), ~ Forall (routable (map fst ps)) L ->
  fold_opt route (Some ps) L = None.
Proof.
  induction L as [|r L IH]; intros ps H; [exfalso; apply H; constructor|].
  change (fold_opt route (Some ps) (r :: L)) with (fold_opt route (route r ps) L).
  destruct (in_dec String.string_dec (partition_key (occurrence (r_stats r))) (map fst ps))
    as [Hr|Hr].
  - destruct (write_stream_some ps _ (record_line r) Hr) as (ps1 & E1 & K1 & _).
    assert (Er : route r ps = Some ps1) by exact E1. rewrite Er. apply IH. rewrite K1. intros HL; apply H; constructor; auto.
  - assert (Er : route r ps = None) by (apply write_stream_none; exact Hr).
    rewrite Er. apply fold_opt_none.
Qed.

Lemma bucket_keys_init : map fst init_streams = bucket_keys.
Proof. reflexivity. Qed.

Lemma stream_lines_init : forall k, stream_lines init_streams k = [].
Proof.
  intros k. unfold init_streams. generalize bucket_keys as keys.
  induction keys as [|a keys IH]; [reflexivity|].
  cbn [map stream_lines]. destruct (String.eqb a k); [reflexivity | exact IH].
Qed.

Lemma partition_key_bucket : forall occ,
  In (partition_key occ) bucket_keys <-> (1 <= occ)%Z.
Proof.
  intros occ. unfold partition_key.
  destruct (Z.leb_spec 10 occ) as [H10|H10].
  - split; [lia|]. intros _. simpl; tauto.
  - destruct (Z_lt_le_dec occ 1) as [Hlt|Hge].
    + split; [|lia]. intros Hin. exfalso.
      destruct (Z.eq_dec occ 0) as [->|Hne].
      * vm_compute in Hin. repeat (destruct Hin as [Hin|Hin]; [discriminate|]); exact Hin.
      * unfold Js.number_to_string in Hin.
        destruct (Z.ltb_spec occ 0) as [_|]; [|lia].
        simpl in Hin. repeat (destruct Hin as [Hin|Hin]; [discriminate|]); exact Hin.
    + split; [lia|]. intros _.
      assert (occ = 1 \/ occ = 2 \/ occ = 3 \/ occ = 4 \/ occ = 5 \/ occ = 6
              \/ occ = 7 \/ occ = 8 \/ occ = 9)%Z as Hc by lia.
      repeat destruct Hc as [->|Hc]; [..|subst]; vm_compute; tauto.
Qed.

Lemma routable_bucket : forall r,
  routable bucket_keys r <-> (1 <= occurrence (r_stats r))%Z.
Proof. intros r; apply partition_key_bucket. Qed.

End FinalMergeFacts.

Module FinalMergeClaims.
Import MergeWorker FinalMerge FinalMergeFacts.
Local Open Scope list_scope.

(** Two input files: a position seen 10 times and one seen 4 + 5 times. *)
Definition tens_and_nines : list reader :=
  [["a" ++ Js.TAB ++ "10" ++ Js.TAB ++ "5" ++ Js.TAB ++ "3" ++ Js.TAB ++ "2";
    "b" ++ Js.TAB ++ "4" ++ Js.TAB ++ "1" ++ Js.TAB ++ "1" ++ Js.TAB ++ "2"]%string;
   ["b" ++ Js.TAB ++ "5" ++ Js.TAB ++ "5" ++ Js.TAB ++ "0" ++ Js.TAB ++ "0"]%string].

(** A line whose occurrence field is not a number. *)
Definition nan_occurrence : list reader :=
  [["a" ++ Js.TAB ++ "x" ++ Js.TAB ++ "1" ++ Js.TAB ++ "0" ++ Js.TAB ++ "0"]%string].

(** C8: when every flushed aggregate has an occurrence of at least 1, the
    final merge completes, and the lines of the stream of key [k] are the
    lines of exactly the records whose [partition_key] is [k], in flush
    order: [10plus] for an occurrence of 10 or more, the occurrence's
    decimal text for 1 to 9. *)
Theorem final_partition : forall readers,
  Forall (fun r => (1 <= occurrence (r_stats r))%Z) (final_records readers) ->
  exists ps, kWayMergeFinal readers = Some ps
    /\ map fst ps = bucket_keys
    /\ (forall k, stream_lines ps k
          = map record_line
              (filter (fun r => String.eqb (partition_key (occurrence (r_stats r))) k)
                 (final_records readers)))
    /\ (forall occ, (10 <= occ)%Z -> partition_key occ = "10plus")
    /\ (forall occ, (1 <= occ < 10)%Z -> partition_key occ = Js.number_to_string occ)
    /\ partition_key 10 = "10plus" /\ partition_key 9 = "9".
Proof.
  intros readers H.
  assert (Hr : Forall (routable (map fst init_streams)) (final_records readers)).
  { rewrite bucket_keys_init. eapply Forall_impl; [|exact H].
    intros r; apply routable_bucket. }
  destruct (fold_route_ok _ _ Hr) as (ps & E & K & L).
  exists ps. split; [rewrite kWayMergeFinal_fold; exact E|].
  split; [rewrite K; apply bucket_keys_init|].
  split; [intros k; rewrite L, stream_lines_init; reflexivity|].
  unfold partition_key.
  split; [intros occ Hocc; destruct (Z.leb_spec 10 occ); [reflexivity | lia]|].
  split; [intros occ Hocc; destruct (Z.leb_spec 10 occ); [lia | reflexivity]|].
  split; reflexivity.
Qed.

Lemma final_partition_witness :
  Forall (fun r => (1 <= occurrence (r_stats r))%Z) (final_records tens_and_nines)
  /\ final_records tens_and_nines
     = [mkRecord "a" (mkStats 10 5 3 2); mkRecord "b" (mkStats 9 6 1 2)]
  /\ exists ps, kWayMergeFinal tens_and_nines = Some ps
    /\ map fst ps = bucket_keys
    /\ (forall k, stream_lines ps k
          = map record_line
              (filter (fun r => String.eqb (partition_key (occurrence (r_stats r))) k)
                 (final_records tens_and_nines)))
    /\ (forall occ, (10 <= occ)%Z -> partition_key occ = "10plus")
    /\ (forall occ, (1 <= occ < 10)%Z -> partition_key occ = Js.number_to_string occ)
    /\ partition_key 10 = "10plus" /\ partition_key 9 = "9".
Proof.
  assert (H : Forall (fun r => (1 <= occurrence (r_stats r))%Z) (final_records tens_and_nines)).
  { vm_compute. repeat constructor; discriminate. }
  split; [exact H|]. split; [vm_compute; reflexivity|].
  exact (final_partition tens_and_nines H).
Defined.

(** C10: the final merge completes exactly when every aggregate it flushes
    has an occurrence of at least 1; otherwise the write to the stream of
    a missing key throws. A line whose occurrence field is not a number
    gives an aggregate of occurrence 0 and the merge throws. *)
Theorem final_merge_total_iff :
  (forall readers,
     (exists ps, kWayMergeFinal readers = Some ps)
     <-> Forall (fun r => (1 <= occurrence (r_stats r))%Z) (final_records readers))
  /\ final_records nan_occurrence = [mkRecord "a" (mkStats 0 1 0 0)]
  /\ kWayMergeFinal nan_occurrence = None.
Proof.
  split; [|split; vm_compute; reflexivity].
  intros readers.
  assert (Hiff : Forall (routable (map fst init_streams)) (final_records readers)
                 <-> Forall (fun r => (1 <= occurrence (r_stats r))%Z) (final_records readers)).
  { rewrite bucket_keys_init. split; apply Forall_impl; intros r; apply routable_bucket. }
  rewrite kWayMergeFinal_fold. split.
  - intros [ps E]. apply Hiff.
    destruct (Forall_dec (routable (map fst init_streams))
                (fun r => in_dec String.string_dec _ _) (final_records readers)) as [Hf|Hf];
      [exact Hf|].
    rewrite (fold_route_fail _ _ Hf) in E. discriminate.
  - intros H. apply Hiff in H.
    destruct (fold_route_ok _ _ H) as (ps & E & _). eauto.
Qed.

End FinalMergeClaims.

(** ** Merge phases and task failures *)

Module OrchestratorFacts.
Import Orchestrator.
Local Open Scope list_scope.

Lemma phases_failure : forall exec tempDir fuel files n t,
  In t (snd (phases exec tempDir fuel files n)) ->
  task_ok (exec t) = false ->
  fst (phases exec tempDir fuel files n) = Aborted
  /\ exists prev k fs,
       snd (phases exec tempDir fuel files n) = prev ++ phase_tasks tempDir k fs
       /\ Forall (fun t' => task_ok (exec t') = true) prev
       /\ In t (phase_tasks tempDir k fs).
Proof.
  intros exec tempDir fuel.
  induction fuel as [|fuel IH]; intros files n t Hin Hfail; simpl in *.
  - destruct (_ || _); simpl in Hin; destruct Hin.
  - destruct ((chunksPerMerge <? length files)%nat || Nat.eqb n 1); [|destruct Hin].
    destruct (forallb (fun t => task_ok (exec t)) (phase_tasks tempDir n files)) eqn:Hall.
    + destruct (phases exec tempDir fuel (map t_outputFile (phase_tasks tempDir n files)) (S n))
        as [o log] eqn:Hp. simpl in *.
      apply in_app_or in Hin as [Hin|Hin].
      * rewrite forallb_forall in Hall. rewrite Hall in Hfail by exact Hin. discriminate.
      * specialize (IH (map t_outputFile (phase_tasks tempDir n files)) (S n) t).
        rewrite Hp in IH. simpl in IH.
        destruct (IH Hin Hfail) as [Ho (prev & k & fs & Hlog & Hok & Ht)].
        split; [exact Ho|]. exists (phase_tasks tempDir n files ++ prev), k, fs.
        split; [rewrite Hlog, app_assoc; reflexivity|]. split; [|exact Ht].
        apply Forall_app; split; [|exact Hok].
        apply Forall_forall; intros x Hx. rewrite forallb_forall in Hall. auto.
    + simpl. split; [reflexivity|]. exists [], n, files. simpl. auto.
Qed.

(** Seven sorted chunks and a merge pool whose second phase-1 merge
    fails. *)
Definition seven_files : list string := ["c0"; "c1"; "c2"; "c3"; "c4"; "c5"; "c6"].

Definition second_merge_fails (t : task) : merge_outcome :=
  if Nat.eqb (t_mergeIndex t) 1 then MergeFailure "EIO" else MergeSuccess 1.

(** C4 (counterexample): with seven chunks, phase 1 submits two merges;
    the second fails, the first succeeds, and nothing follows: the method
    throws, the run fails although the final merge and the later steps
    would succeed. *)
Lemma failed_merge_aborts_run :
  multiPhaseKWayMerge second_merge_fails "temp" seven_files
    = (Aborted,
       [mkTask ["c0"; "c1"; "c2"; "c3"; "c4"; "c5"] "temp/phase1/chunk_0.tmp" 0 true;
        mkTask ["c6"] "temp/phase1/chunk_1.tmp" 1 true])
  /\ task_ok (second_merge_fails
       (mkTask ["c0"; "c1"; "c2"; "c3"; "c4"; "c5"] "temp/phase1/chunk_0.tmp" 0 true)) = true
  /\ run second_merge_fails (fun _ => true) "temp" seven_files = RunFailed.
Proof. split; [|split]; vm_compute; reflexivity. Qed.

(** C4 (amended): if a submitted merge task fails, the phase it belongs to
    is the last one submitted, every task of the earlier phases succeeded
    (so the failed task is not run again), [multiPhaseKWayMerge] throws,
    and the run fails, whatever the final merge would do. *)
Theorem failed_merge_fails_run : forall exec rest_ok tempDir sortedFiles t,
  In t (snd (multiPhaseKWayMerge exec tempDir sortedFiles)) ->
  task_ok (exec t) = false ->
  fst (multiPhaseKWayMerge exec tempDir sortedFiles) = Aborted
  /\ run exec rest_ok tempDir sortedFiles = RunFailed
  /\ exists prev k fs,
       snd (multiPhaseKWayMerge exec tempDir sortedFiles) = prev ++ phase_tasks tempDir k fs
       /\ Forall (fun t' => task_ok (exec t') = true) prev
       /\ ~ In t prev
       /\ In t (phase_tasks tempDir k fs).
Proof.
  intros exec rest_ok tempDir sortedFiles t Hin Hfail.
  destruct (phases_failure exec tempDir _ _ _ t Hin Hfail)
    as [Ho (prev & k & fs & Hlog & Hok & Ht)].
  assert (Ho' : fst (multiPhaseKWayMerge exec tempDir sortedFiles) = Aborted) by exact Ho.
  split; [exact Ho'|]. split; [unfold run; rewrite Ho'; reflexivity|].
  exists prev, k, fs. split; [exact Hlog|]. split; [exact Hok|]. split; [|exact Ht].
  intros Hp. rewrite Forall_forall in Hok. rewrite (Hok t Hp) in Hfail. discriminate.
Qed.

Lemma failed_merge_fails_run_witness :
  In (mkTask ["c6"] "temp/phase1/chunk_1.tmp" 1 true)
     (snd (multiPhaseKWayMerge second_merge_fails "temp" seven_files))
  /\ task_ok (second_merge_fails (mkTask ["c6"] "temp/phase1/chunk_1.tmp" 1 true)) = false
  /\ fst (multiPhaseKWayMerge second_merge_fails "temp" seven_files) = Aborted
  /\ run second_merge_fails (fun _ => true) "temp" seven_files = RunFailed
  /\ exists prev k fs,
       snd (multiPhaseKWayMerge second_merge_fails "temp" seven_files)
         = prev ++ phase_tasks "temp" k fs
       /\ Forall (fun t' => task_ok (second_merge_fails t') = true) prev
       /\ ~ In (mkTask ["c6"] "temp/phase1/chunk_1.tmp" 1 true) prev
       /\ In (mkTask ["c6"] "temp/phase1/chunk_1.tmp" 1 true) (phase_tasks "temp" k fs).
Proof.
  assert (H1 : In (mkTask ["c6"] "temp/phase1/chunk_1.tmp" 1 true)
                 (snd (multiPhaseKWayMerge second_merge_fails "temp" seven_files))).
  { vm_compute. right; left; reflexivity. }
  assert (H2 : task_ok (second_merge_fails (mkTask ["c6"] "temp/phase1/chunk_1.tmp" 1 true))
               = false) by reflexivity.
  split; [exact H1|]. split; [exact H2|].
  exact (failed_merge_fails_run second_merge_fails (fun _ => true) "temp" seven_files _ H1 H2).
Defined.

End OrchestratorFacts.

(** ** Replay failures in the extraction worker *)

Module FenWorkerClaims.
Import FenWorker.
Local Open Scope list_scope.

Lemma replay_nonempty : forall {Board} fen move (b : Board) h r g ps,
  replay fen move b h r g ps <> [].
Proof.
  intros Board fen move b h. revert b.
  induction h as [|san h IH]; intros b r g ps; simpl.
  - destruct ps; discriminate.
  - destruct (move b san) as [b'|]; [apply IH|destruct ps; discriminate].
Qed.

(** A game set up from a position ([FEN] and [SetUp] tags) whose first
    move, castling, is legal there but not in the initial position. *)
Definition q (s : string) : string := String QUOTE (s ++ String QUOTE EmptyString).

Definition setup_game : string :=
  "[ID " ++ q "g1" ++ "]" ++ Js.NL ++
  "[FEN " ++ q "4k3/8/8/8/8/8/8/4K2R w K - 0 1" ++ "]" ++ Js.NL ++
  "[SetUp " ++ q "1" ++ "]" ++ Js.NL ++ Js.NL ++
  "1. O-O 1-0" ++ Js.NL.

(** The boards of a stand-in engine, by their FEN. *)
Definition start_fen : string := "rnbqkbnr/pppppppp/8/8/8/8/PPPPPPPP/RNBQKBNR w KQkq - 0 1".

(** C7: when the game's result and ID are found and [loadPgn] accepts the
    text, but the first move of its history is refused by the board that
    [new Chess()] starts from, [processGame] returns the one record of
    that starting position, not an empty list: the [catch] hands back the
    positions pushed so far, and the replay never yields an empty list. *)
Theorem replay_failure_keeps_partial :
  forall {Board} (newBoard : Board) fen move loadPgn gameText result gameId san rest,
  extractResult gameText = Some result ->
  result <> "*" ->
  extractGameId gameText = Some gameId ->
  loadPgn gameText = Some (san :: rest) ->
  move newBoard san = None ->
  processGame newBoard fen move loadPgn gameText = [record fen newBoard result gameId]
  /\ (forall h, replay fen move newBoard h result gameId [] <> []).
Proof.
  intros Board newBoard fen move loadPgn gameText result gameId san rest Hr Hs Hi Hl Hm.
  split; [|intros h; apply replay_nonempty].
  unfold processGame. rewrite Hr.
  destruct (String.eqb_spec result "*") as [E|_]; [congruence|].
  rewrite Hi, Hl. simpl. rewrite Hm. reflexivity.
Qed.

Lemma replay_failure_keeps_partial_witness :
  extractResult setup_game = Some "1-0"
  /\ extractGameId setup_game = Some "g1"
  /\ processGame (Board := string) start_fen (fun b => b) (fun _ _ => None)
       (fun _ => Some ["O-O"]) setup_game
     = [ChunkWriter.mkPosition "rnbqkbnr/pppppppp/8/8/8/8/PPPPPPPP/RNBQKBNR w KQkq - 0 1"
          "1-0" (Some "g1")]
  /\ (forall h, replay (Board := string) (fun b => b) (fun _ _ => None) start_fen h "1-0" "g1" []
                <> []).
Proof.
  assert (H1 : extractResult setup_game = Some "1-0") by (vm_compute; reflexivity).
  assert (H2 : extractGameId setup_game = Some "g1") by (vm_compute; reflexivity).
  split; [exact H1|]. split; [exact H2|].
  destruct (replay_failure_keeps_partial (Board := string) start_fen (fun b => b)
              (fun _ _ => None) (fun _ => Some ["O-O"]) setup_game "1-0" "g1" "O-O" []
              H1 ltac:(discriminate) H2 eq_refl eq_refl) as [E N].
  split; [rewrite E; vm_compute; reflexivity | exact N].
Defined.

End FenWorkerClaims.

(* ------------------------------------------------------------------ *)
(** ** Further properties of the pipeline: number and line read-back,
    merge phases, game splitting, chunk writing, the extraction worker,
    the output files and the chunk listing *)

Module NumberFacts.
Import Js.

Fixpoint all_digits (s : string) : bool :=
  match s with
  | EmptyString => true
  | String c s' => ChunkFiles.is_digit c && all_digits s'
  end.

Lemma is_digit_cases : forall c, ChunkFiles.is_digit c = true ->
  c = "0"%char \/ c = "1"%char \/ c = "2"%char \/ c = "3"%char \/ c = "4"%char \/
  c = "5"%char \/ c = "6"%char \/ c = "7"%char \/ c = "8"%char \/ c = "9"%char.
Proof.
  intros c H.
  destruct c as [[] [] [] [] [] [] [] []]; vm_compute in H; try discriminate;
    auto 11.
Qed.

Lemma digit_char : forall k, (k < 10)%nat ->
  digit_value 10 (ascii_of_nat (48 + k)) = Some (Z.of_nat k).
Proof.
  intros k Hk.
  do 10 (destruct k as [|k]; [reflexivity|]). lia.
Qed.

Lemma digit_char_is_digit : forall k, (k < 10)%nat ->
  ChunkFiles.is_digit (ascii_of_nat (48 + k)) = true.
Proof.
  intros k Hk.
  do 10 (destruct k as [|k]; [reflexivity|]). lia.
Qed.

Lemma mod10_nat : forall n, (0 <= n)%Z ->
  (Z.to_nat (n mod 10) < 10)%nat /\ Z.of_nat (Z.to_nat (n mod 10)) = (n mod 10)%Z.
Proof.
  intros n Hn. pose proof (Z.mod_pos_bound n 10 ltac:(lia)). split; lia.
Qed.

Lemma parse_digits_digits : forall f n acc, (0 <= n < 10 ^ Z.of_nat (S f))%Z ->
  parse_digits 10 (digits (S f) n acc) None = parse_digits 10 acc (Some n).
Proof.
  induction f as [|f IH]; intros n acc Hn.
  - cbn [digits].
    destruct (mod10_nat n ltac:(lia)) as [H1 H2].
    assert (Hlt : (n <? 10)%Z = true) by (apply Z.ltb_lt; simpl in Hn; lia).
    rewrite Hlt. cbn [parse_digits]. rewrite (digit_char _ H1), H2.
    rewrite Z.mod_small by (simpl in Hn; lia). reflexivity.
  - change (digits (S (S f)) n acc) with
      (let acc' := String (ascii_of_nat (48 + Z.to_nat (n mod 10))) acc in
       if (n <? 10)%Z then acc' else digits (S f) (n / 10) acc').
    cbv zeta.
    destruct (mod10_nat n ltac:(lia)) as [H1 H2].
    destruct (Z.ltb_spec n 10) as [Hlt|Hge].
    + cbn [parse_digits]. rewrite (digit_char _ H1), H2.
      rewrite Z.mod_small by lia. reflexivity.
    + rewrite IH.
      * cbn [parse_digits]. rewrite (digit_char _ H1), H2.
        f_equal. f_equal. pose proof (Z.div_mod n 10). lia.
      * split; [apply Z.div_pos; lia|].
        apply Z.div_lt_upper_bound; [lia|].
        rewrite Nat2Z.inj_succ, Z.pow_succ_r in Hn by lia. lia.
Qed.

Lemma digits_all_digits : forall f n acc, (0 <= n)%Z -> all_digits acc = true ->
  all_digits (digits f n acc) = true.
Proof.
  induction f as [|f IH]; intros n acc Hn Ha; [exact Ha|].
  cbn [digits]. destruct (mod10_nat n Hn) as [H1 _].
  destruct (n <? 10)%Z.
  - cbn [all_digits]. rewrite (digit_char_is_digit _ H1). exact Ha.
  - apply IH; [apply Z.div_pos; lia|].
    cbn [all_digits]. rewrite (digit_char_is_digit _ H1). exact Ha.
Qed.

Lemma digits_nonempty : forall f n acc, digits (S f) n acc <> EmptyString.
Proof.
  induction f as [|f IH]; intros n acc; cbn [digits].
  - destruct (n <? 10)%Z; discriminate.
  - destruct (n <? 10)%Z; [discriminate|apply IH].
Qed.

Lemma digit_not_x : forall c, ChunkFiles.is_digit c = true ->
  (Ascii.eqb c "x" || Ascii.eqb c "X")%bool = false.
Proof.
  intros c H. destruct (is_digit_cases c H) as [E|[E|[E|[E|[E|[E|[E|[E|[E|E]]]]]]]]];
    subst; reflexivity.
Qed.

Lemma parse_unsigned_digits : forall s, all_digits s = true ->
  parse_unsigned s = parse_digits 10 s None.
Proof.
  intros [|c s] H; [reflexivity|].
  cbn [all_digits] in H. apply andb_prop in H as [Hc Hs].
  destruct (is_digit_cases c Hc) as [E|[E|[E|[E|[E|[E|[E|[E|[E|E]]]]]]]]];
    subst; try reflexivity.
  destruct s as [|x s]; [reflexivity|].
  cbn [all_digits] in Hs. apply andb_prop in Hs as [Hx _].
  unfold parse_unsigned. rewrite (digit_not_x x Hx). reflexivity.
Qed.

Lemma parseInt_digits : forall s, all_digits s = true ->
  parseInt s = parse_digits 10 s None.
Proof.
  intros [|c s] H; [reflexivity|].
  rewrite <- parse_unsigned_digits by exact H.
  cbn [all_digits] in H. apply andb_prop in H as [Hc Hs].
  destruct (is_digit_cases c Hc) as [E|[E|[E|[E|[E|[E|[E|[E|[E|E]]]]]]]]];
    subst; reflexivity.
Qed.

Lemma fuel_bound : forall z, (0 <= z)%Z ->
  (z < 10 ^ Z.of_nat (S (Z.to_nat (Z.log2 z))))%Z.
Proof.
  intros z Hz.
  rewrite Nat2Z.inj_succ, Z2Nat.id by apply Z.log2_nonneg.
  destruct (Z.eq_dec z 0) as [->|Hnz]; [simpl; lia|].
  destruct (Z.log2_spec z ltac:(lia)) as [_ H].
  eapply Z.lt_le_trans; [exact H|].
  apply Z.pow_le_mono_l. split; [lia|lia].
Qed.

Lemma number_to_string_nonneg : forall z, (0 <= z)%Z ->
  number_to_string z = digits (S (Z.to_nat (Z.log2 z))) z EmptyString.
Proof.
  intros z Hz. unfold number_to_string.
  destruct (Z.ltb_spec z 0); [lia|reflexivity].
Qed.

Lemma parseInt_number_nonneg : forall z, (0 <= z)%Z ->
  parseInt (number_to_string z) = Some z.
Proof.
  intros z Hz. rewrite number_to_string_nonneg by exact Hz.
  rewrite parseInt_digits by (apply digits_all_digits; auto).
  rewrite parse_digits_digits by (split; [exact Hz|apply fuel_bound; exact Hz]).
  reflexivity.
Qed.

Lemma number_to_string_all_digits : forall z, (0 <= z)%Z ->
  all_digits (number_to_string z) = true.
Proof.
  intros z Hz. rewrite number_to_string_nonneg by exact Hz.
  apply digits_all_digits; auto.
Qed.

Lemma number_to_string_not_empty : forall z, number_to_string z <> EmptyString.
Proof.
  intros z. unfold number_to_string. destruct (z <? 0)%Z; [discriminate|].
  apply digits_nonempty.
Qed.

Lemma parseInt_number : forall z,
  parseInt (number_to_string z) = Some z.
Proof.
  intros z. destruct (Z.ltb_spec z 0) as [Hneg|Hnn].
  - unfold number_to_string. destruct (Z.ltb_spec z 0); [|lia].
    change (option_map Z.opp (parse_unsigned
              (digits (S (Z.to_nat (Z.log2 (- z)))) (- z) EmptyString)) = Some z).
    rewrite parse_unsigned_digits
      by (apply digits_all_digits; [lia|reflexivity]).
    rewrite parse_digits_digits
      by (split; [lia|apply fuel_bound; lia]).
    cbn. f_equal. lia.
  - apply parseInt_number_nonneg; exact Hnn.
Qed.

End NumberFacts.

Module LineFacts.
Import Js.

Fixpoint no_char (c : ascii) (s : string) : bool :=
  match s with
  | EmptyString => true
  | String d s' => negb (Ascii.eqb c d) && no_char c s'
  end.

Lemma sapp_assoc : forall a b c : string, (a ++ b) ++ c = a ++ b ++ c.
Proof. induction a as [|x a IH]; intros; simpl; [reflexivity|rewrite IH; reflexivity]. Qed.

Lemma sapp_nil_r : forall a : string, a ++ "" = a.
Proof. induction a as [|x a IH]; simpl; [reflexivity|rewrite IH; reflexivity]. Qed.


Lemma substring_prefix : forall x y : string,
  String.substring 0 (String.length x) (x ++ y) = x.
Proof. induction x as [|d x IH]; intros y; simpl; [destruct y; reflexivity|rewrite IH; reflexivity]. Qed.

Lemma substring_whole : forall x : string,
  String.substring 0 (String.length x) x = x.
Proof. intros x. rewrite <- (sapp_nil_r x) at 2. rewrite substring_prefix. reflexivity.
Qed.





Lemma tabs_from_none : forall x pos from k, no_char "009"%char x = true ->
  MergeWorker.tabs_from x pos from k = [].
Proof.
  induction x as [|d x IH]; intros pos from k Hx; destruct k; simpl; auto.
  cbn [no_char] in Hx. apply andb_prop in Hx as [Hd Hx].
  apply negb_true_iff in Hd. rewrite Ascii.eqb_sym in Hd. rewrite Hd, andb_false_r.
  apply IH; exact Hx.
Qed.

End LineFacts.



Module ReadBackFacts.
Import Js MergeWorker LineFacts.

Definition fen_text (r : flushed) : string :=
  match f_fen r with Some f => f | None => "undefined" end.

Definition output_text (r : flushed) : string :=
  f_hash r ++ TAB ++ fen_text r ++ TAB ++
  number_to_string (occurrence (f_stats r)) ++ TAB ++
  number_to_string (white (f_stats r)) ++ TAB ++
  number_to_string (black (f_stats r)) ++ TAB ++
  number_to_string (draw (f_stats r)).

Lemma output_line_text : forall r, output_line r = output_text r ++ NL.
Proof.
  intros r. unfold output_line, output_text, fen_text. rewrite !sapp_assoc. reflexivity.
Qed.

Lemma all_digits_no_char : forall c s, ChunkFiles.is_digit c = false ->
  NumberFacts.all_digits s = true -> no_char c s = true.
Proof.
  intros c s Hc. induction s as [|d s IH]; [reflexivity|].
  cbn [NumberFacts.all_digits no_char]. intros H. apply andb_prop in H as [Hd Hs].
  rewrite IH by exact Hs. destruct (Ascii.eqb_spec c d); [subst; congruence|reflexivity].
Qed.

Lemma number_no_char : forall c z, ChunkFiles.is_digit c = false ->
  Ascii.eqb c "-" = false -> no_char c (number_to_string z) = true.
Proof.
  intros c z Hc Hm. destruct (Z.ltb_spec z 0) as [Hz|Hz].
  - unfold number_to_string. destruct (Z.ltb_spec z 0); [|lia].
    cbn [no_char]. rewrite Hm. cbn [negb andb].
    apply all_digits_no_char; [exact Hc|apply NumberFacts.digits_all_digits; [lia|reflexivity]].
  - apply all_digits_no_char; [exact Hc|apply NumberFacts.number_to_string_all_digits; exact Hz].
Qed.







End ReadBackFacts.

Module ReaderFacts.
Import Js MergeWorker LineFacts ReadBackFacts.

Lemma split_nonempty : forall c s, split c s <> [].
Proof.
  intros c s; destruct s as [|d s]; simpl; [discriminate|].
  destruct (split c s); [discriminate|]. destruct (Ascii.eqb c d); discriminate.
Qed.

Lemma split_field : forall c x rest, no_char c x = true ->
  split c (x ++ String c rest) = x :: split c rest.
Proof.
  intros c. induction x as [|d x IH]; intros rest Hx.
  - cbn [append split]. rewrite Ascii.eqb_refl.
    destruct (split c rest) eqn:E; [exfalso; exact (split_nonempty c rest E)|reflexivity].
  - cbn [no_char] in Hx. apply andb_prop in Hx as [Hd Hx]. apply negb_true_iff in Hd.
    cbn [append split]. rewrite IH by exact Hx. rewrite Hd. reflexivity.
Qed.

Lemma trim_right_keep : forall s c, is_space c = false ->
  trim_right (s ++ String c EmptyString) = s ++ String c EmptyString.
Proof.
  induction s as [|d s IH]; intros c Hc.
  - cbn [append trim_right]. rewrite Hc. reflexivity.
  - cbn [append trim_right]. rewrite IH by exact Hc.
    destruct s; reflexivity.
Qed.

Lemma digits_suffix : forall f n acc, exists p, digits f n acc = p ++ acc.
Proof.
  induction f as [|f IH]; intros n acc; [exists EmptyString; reflexivity|].
  cbn [digits]. destruct (n <? 10)%Z.
  - eexists (String _ EmptyString). reflexivity.
  - destruct (IH (n / 10)%Z (String (ascii_of_nat (48 + Z.to_nat (n mod 10))) acc)) as [p Hp].
    rewrite Hp. exists (p ++ String (ascii_of_nat (48 + Z.to_nat (n mod 10))) EmptyString).
    rewrite sapp_assoc. reflexivity.
Qed.

Lemma number_last : forall z, exists p d, number_to_string z = p ++ String d EmptyString /\
  is_space d = false.
Proof.
  intros z. unfold number_to_string.
  assert (G : forall n, (0 <= n)%Z -> exists p d,
    digits (S (Z.to_nat (Z.log2 n))) n EmptyString = p ++ String d EmptyString /\ is_space d = false).
  { intros n Hn. cbn [digits].
    destruct (NumberFacts.mod10_nat n Hn) as [H1 _].
    set (d := ascii_of_nat (48 + Z.to_nat (n mod 10))).
    assert (Hd : is_space d = false).
    { unfold d. clear -H1. remember (Z.to_nat (n mod 10)) as k.
      do 10 (destruct k as [|k]; [reflexivity|]). lia. }
    destruct (n <? 10)%Z.
    - exists EmptyString, d. auto.
    - destruct (digits_suffix (Z.to_nat (Z.log2 n)) (n / 10)%Z (String d EmptyString)) as [p Hp].
      exists p, d. auto. }
  destruct (Z.ltb_spec z 0).
  - destruct (G (- z)%Z ltac:(lia)) as [p [d [E Hd]]]. rewrite E.
    exists (String "-" p), d. auto.
  - apply G; lia.
Qed.

Lemma trim_output_text : forall r c h, f_hash r = String c h -> is_space c = false ->
  trim (output_text r) = output_text r.
Proof.
  intros r c h Eh Hc. unfold trim.
  assert (Hl : trim_left (output_text r) = output_text r).
  { unfold output_text. rewrite Eh. cbn [append trim_left]. rewrite Hc. reflexivity. }
  rewrite Hl.
  destruct (number_last (draw (f_stats r))) as [p [d [E Hd]]].
  unfold output_text. rewrite E.
  rewrite <- !sapp_assoc. apply trim_right_keep; exact Hd.
Qed.

Definition line_ok (r : flushed) : Prop :=
  no_char "010"%char (f_hash r) = true /\ no_char "010"%char (fen_text r) = true /\
  exists c h, f_hash r = String c h /\ is_space c = false.

Lemma output_text_no_nl : forall r, line_ok r -> no_char "010"%char (output_text r) = true.
Proof.
  intros r [Hh [Hf _]].
  assert (Happ : forall a b, no_char "010"%char a = true -> no_char "010"%char b = true ->
                 no_char "010"%char (a ++ b) = true).
  { induction a as [|x a IH]; intros b Ha Hb; [exact Hb|].
    cbn [no_char append] in *. apply andb_prop in Ha as [Hx Ha]. rewrite Hx. simpl. auto. }
  assert (Hn : forall z, no_char "010"%char (number_to_string z) = true)
    by (intros; apply number_no_char; reflexivity).
  unfold output_text. repeat (apply Happ; [auto|]); auto.
Qed.

Lemma concat_cons : forall x l, String.concat "" (x :: l) = x ++ String.concat "" l.
Proof. intros x [|y l]; simpl; [rewrite sapp_nil_r|]; reflexivity. Qed.

Lemma reader_lines_output : forall rs, Forall line_ok rs ->
  reader_lines (String.concat "" (map output_line rs)) = map output_text rs.
Proof.
  intros rs H. unfold reader_lines.
  assert (Hs : split "010"%char (String.concat "" (map output_line rs)) =
               (map output_text rs ++ [""])%list).
  { induction H as [|r rs Hr Hrs IH]; [reflexivity|].
    cbn [map]. rewrite concat_cons, output_line_text, sapp_assoc.
    change NL with (String "010"%char EmptyString). cbn [append].
    rewrite split_field by (apply output_text_no_nl; exact Hr).
    rewrite IH. reflexivity. }
  rewrite Hs, map_app, filter_app. cbn [map filter]. simpl (negb (String.eqb (trim "") "")).
  rewrite app_nil_r. clear Hs.
  induction H as [|r rs Hr Hrs IH]; [reflexivity|].
  cbn [map filter].
  pose proof Hr as [_ [_ [c [h [Eh Hc]]]]].
  rewrite (trim_output_text r c h Eh Hc).
  replace (String.eqb (output_text r) "") with false.
  - cbn [negb]. rewrite IH. reflexivity.
  - unfold output_text. rewrite Eh. reflexivity.
Qed.

End ReaderFacts.

Module PhaseFacts.
Import Orchestrator.
Local Open Scope list_scope.

Lemma batches_concat : forall fuel k files, (1 <= k)%nat -> (length files <= fuel)%nat ->
  concat (batches fuel k files) = files.
Proof.
  induction fuel as [|fuel IH]; intros k files Hk Hlen.
  - destruct files; [reflexivity|simpl in Hlen; lia].
  - destruct files as [|x xs]; [reflexivity|].
    cbn [batches concat]. rewrite IH by (try rewrite length_skipn; cbn [length] in *; lia).
    apply firstn_skipn.
Qed.

Lemma batches_sizes : forall fuel k files, (1 <= k)%nat ->
  Forall (fun b => 1 <= length b <= k)%nat (batches fuel k files).
Proof.
  induction fuel as [|fuel IH]; intros k files Hk; [constructor|].
  destruct files as [|x xs]; [constructor|].
  cbn [batches]. constructor; [|apply IH; exact Hk].
  rewrite length_firstn. simpl. lia.
Qed.

Lemma batches_length : forall fuel k files, (1 <= k)%nat ->
  (length (batches fuel k files) <= length files)%nat.
Proof.
  induction fuel as [|fuel IH]; intros k files Hk; [simpl; lia|].
  destruct files as [|x xs]; [simpl; lia|].
  cbn [batches length]. specialize (IH k (skipn k (x :: xs)) Hk).
  rewrite length_skipn in IH. cbn [length] in *. lia.
Qed.

Lemma batches_shrink : forall fuel files, (6 < length files)%nat ->
  (length (batches (S fuel) 6 files) <= length files - 5)%nat.
Proof.
  intros fuel files H. destruct files as [|x xs]; [simpl in H; lia|].
  cbn [batches length]. pose proof (batches_length fuel 6 (skipn 6 (x :: xs)) ltac:(lia)) as B.
  rewrite length_skipn in B. cbn [length] in *. lia.
Qed.

Lemma batches_nonempty : forall fuel k files, files <> [] -> fuel <> 0%nat ->
  batches fuel k files <> [].
Proof. intros [|f] k [|x xs] H1 H2; simpl; congruence. Qed.

Lemma combine_seq_snd : forall {A} (l : list A) s, map snd (combine (seq s (length l)) l) = l.
Proof. induction l as [|x l IH]; intros s; simpl; [reflexivity|rewrite IH; reflexivity]. Qed.

Lemma combine_seq_fst : forall {A} (l : list A) s,
  map fst (combine (seq s (length l)) l) = seq s (length l).
Proof. induction l as [|x l IH]; intros s; simpl; [reflexivity|rewrite IH; reflexivity]. Qed.

Lemma phase_batches : forall d p files,
  map t_batch (phase_tasks d p files) = batches (length files) chunksPerMerge files.
Proof.
  intros d p files. unfold phase_tasks. rewrite map_map. cbn [t_batch].
  apply combine_seq_snd.
Qed.

Lemma phase_indices : forall d p files,
  map t_mergeIndex (phase_tasks d p files) = seq 0 (length (phase_tasks d p files)).
Proof.
  intros d p files. unfold phase_tasks. rewrite map_map, length_map. cbn [t_mergeIndex].
  rewrite combine_seq_fst. rewrite length_combine, length_seq, Nat.min_id. reflexivity.
Qed.

Lemma phase_tasks_length : forall d p files,
  length (phase_tasks d p files) = length (batches (length files) chunksPerMerge files).
Proof.
  intros. rewrite <- (length_map t_batch), phase_batches. reflexivity.
Qed.


Lemma sapp_cancel_l : forall p a b : string, (p ++ a = p ++ b)%string -> a = b.
Proof. induction p as [|c p IH]; intros a b H; [exact H|]. injection H; apply IH. Qed.

Lemma sapp_cancel_r : forall a b s : string, (a ++ s = b ++ s)%string -> a = b.
Proof.
  intros a b s H.
  assert (Hl : String.length a = String.length b).
  { apply (f_equal String.length) in H. rewrite !StringFacts.length_app in H. lia. }
  rewrite <- (LineFacts.substring_prefix a s), H, Hl. apply LineFacts.substring_prefix.
Qed.

Lemma number_to_string_inj : forall x y,
  Js.number_to_string x = Js.number_to_string y -> x = y.
Proof.
  intros x y H. apply (f_equal Js.parseInt) in H.
  rewrite !NumberFacts.parseInt_number in H. congruence.
Qed.

Lemma NoDup_map_inj : forall {A B} (f : A -> B) (l : list A),
  (forall x y, f x = f y -> x = y) -> NoDup l -> NoDup (map f l).
Proof.
  intros A B f l Hf H. induction H as [|x l Hx H IH]; simpl; constructor; auto.
  intros Hin. apply in_map_iff in Hin as [y [Ey Hy]]. apply Hf in Ey. subst. contradiction.
Qed.

Lemma map_fst_combine : forall {A B} (g : nat -> B) (l : list A) s,
  map (fun x => g (fst x)) (combine (seq s (length l)) l) = map g (seq s (length l)).
Proof. intros A B g. induction l as [|x l IH]; intros s; simpl; [reflexivity|rewrite IH; reflexivity]. Qed.

Lemma phase_outputs : forall d p files,
  map t_outputFile (phase_tasks d p files) =
  map (fun i => ((d ++ "/phase" ++ Js.number_to_string (Z.of_nat p)) ++ "/chunk_" ++
                Js.number_to_string (Z.of_nat i) ++ ".tmp")%string)
      (seq 0 (length (phase_tasks d p files))).
Proof.
  intros d p files. rewrite phase_tasks_length. unfold phase_tasks.
  rewrite map_map. cbn [t_outputFile].
  apply (map_fst_combine (fun i => ((d ++ "/phase" ++ Js.number_to_string (Z.of_nat p)) ++
                "/chunk_" ++ Js.number_to_string (Z.of_nat i) ++ ".tmp")%string)).
Qed.

Lemma phases_ready : forall exec d fuel files p,
  (forall t, task_ok (exec t) = true) -> (2 <= p)%nat -> (length files <= fuel)%nat ->
  exists fs, fst (phases exec d fuel files p) = ReadyForFinal fs /\
    (length fs <= 6)%nat /\ (files <> [] -> fs <> []).
Proof.
  intros exec d fuel. induction fuel as [|fuel IH]; intros files p Hok Hp Hlen.
  - destruct files; [|simpl in Hlen; lia].
    exists []. simpl. rewrite (proj2 (Nat.eqb_neq p 1) ltac:(lia)). simpl. split; [reflexivity|split; [lia|auto]].
  - simpl. rewrite (proj2 (Nat.eqb_neq p 1) ltac:(lia)), orb_false_r.
    destruct (chunksPerMerge <? length files)%nat eqn:Hc.
    + apply Nat.ltb_lt in Hc.
      replace (forallb (fun t => task_ok (exec t)) (phase_tasks d p files)) with true
        by (symmetry; apply forallb_forall; auto).
      destruct (IH (map t_outputFile (phase_tasks d p files)) (S p) Hok ltac:(lia))
        as [fs [E [Hl Hne]]].
      { rewrite length_map, phase_tasks_length. unfold chunksPerMerge in *.
        replace (length files) with (S (length files - 1)) at 1 by lia.
        pose proof (batches_shrink (length files - 1) files Hc). lia. }
      destruct (phases exec d fuel (map t_outputFile (phase_tasks d p files)) (S p)) as [o log].
      simpl in E. exists fs. simpl. split; [exact E|split; [exact Hl|]].
      intros Hf. apply Hne. intros Hm. apply map_eq_nil in Hm.
      apply (f_equal (@length _)) in Hm. rewrite phase_tasks_length in Hm.
      destruct files as [|x xs]; [contradiction|].
      cbn [length] in Hm. simpl in Hm. discriminate.
    + exists files. simpl. split; [reflexivity|]. apply Nat.ltb_ge in Hc.
      unfold chunksPerMerge in Hc. split; [lia|auto].
Qed.

End PhaseFacts.

Module PhaseProps.
Import Orchestrator PhaseFacts.
Local Open Scope list_scope.

(** The tasks of one merge phase cut the phase's input files, in order,
    into batches of one to six files; task [i] has merge index [i], the
    phase-1 flag of the phase, and its own output file. *)
Theorem phase_tasks_partition : forall tempDir phaseNumber files,
  let ts := phase_tasks tempDir phaseNumber files in
  concat (map t_batch ts) = files /\
  Forall (fun t => 1 <= length (t_batch t) <= chunksPerMerge /\
                   t_isFirstPhase t = Nat.eqb phaseNumber 1)%nat ts /\
  map t_mergeIndex ts = seq 0 (length ts) /\
  NoDup (map t_outputFile ts).
Proof.
  intros d p files ts. split; [|split; [|split]].
  - unfold ts. rewrite phase_batches. apply batches_concat; unfold chunksPerMerge; lia.
  - apply Forall_forall. intros t Ht. split.
    + pose proof (batches_sizes (length files) chunksPerMerge files ltac:(unfold chunksPerMerge; lia)) as B.
      rewrite <- (phase_batches d p) in B. rewrite Forall_forall in B.
      apply B, in_map, Ht.
    + unfold ts, phase_tasks in Ht. apply in_map_iff in Ht as [ib [Et _]].
      subst t. reflexivity.
  - apply phase_indices.
  - unfold ts. rewrite phase_outputs. apply NoDup_map_inj; [|apply seq_NoDup].
    intros x y H. apply sapp_cancel_l in H. apply sapp_cancel_l in H.
    apply sapp_cancel_r in H. apply number_to_string_inj in H. lia.
Qed.


(** When every merge of the pool succeeds, the phase loop ends, with no
    more than six files left for the final merge, and at least one when
    there was at least one sorted chunk. *)
Theorem merge_phases_reach_final : forall exec tempDir sortedFiles,
  (forall t, task_ok (exec t) = true) ->
  exists files,
    fst (multiPhaseKWayMerge exec tempDir sortedFiles) = ReadyForFinal files /\
    (length files <= chunksPerMerge)%nat /\ (sortedFiles <> [] -> files <> []).
Proof.
  intros exec d files Hok. unfold multiPhaseKWayMerge. simpl. rewrite orb_true_r.
  replace (forallb (fun t => task_ok (exec t)) (phase_tasks d 1 files)) with true
    by (symmetry; apply forallb_forall; auto).
  destruct (phases_ready exec d (length files) (map t_outputFile (phase_tasks d 1 files)) 2 Hok
              ltac:(lia)) as [fs [E [Hl Hne]]].
  { rewrite length_map, phase_tasks_length. apply batches_length. unfold chunksPerMerge; lia. }
  destruct (phases exec d (length files) (map t_outputFile (phase_tasks d 1 files)) 2) as [o log].
  simpl in E. exists fs. split; [exact E|split; [exact Hl|]].
  intros Hf. apply Hne. intros Hm. apply map_eq_nil in Hm.
  apply (f_equal (@length _)) in Hm. rewrite phase_tasks_length in Hm.
  destruct files as [|x xs]; [contradiction|]. simpl in Hm. discriminate.
Qed.

Lemma merge_phases_reach_final_witness :
  (forall t, task_ok ((fun _ : task => MergeSuccess 0) t) = true) /\
  exists files,
    fst (multiPhaseKWayMerge (fun _ => MergeSuccess 0) "tmp" ["a"; "b"]) = ReadyForFinal files /\
    (length files <= chunksPerMerge)%nat /\ (["a"; "b"] <> [] -> files <> []).
Proof.
  split; [intros; reflexivity|].
  apply (merge_phases_reach_final (fun _ => MergeSuccess 0) "tmp" ["a"; "b"]).
  intros; reflexivity.
Defined.

End PhaseProps.

Module SplitterFacts.
Import Js GameSplitter LineFacts ReaderFacts.
Local Open Scope list_scope.

Definition set_buffer (st : splitter) (x : string) : splitter :=
  mkSplitter x (currentGame st) (inGame st) (currentBatch st) (batchQueue st).

Lemma split_cons : forall c d s, split c (String d s) =
  match split c s with
  | [] => [String d EmptyString]
  | h :: t => if Ascii.eqb c d then EmptyString :: h :: t else String d h :: t
  end.
Proof. reflexivity. Qed.

Lemma split_app : forall c x y,
  split c (x ++ y) = (removelast (split c x) ++ split c (last (split c x) "" ++ y))%list.
Proof.
  intros c. induction x as [|d x IH]; intros y; [reflexivity|].
  change (String d x ++ y)%string with (String d (x ++ y)).
  rewrite !split_cons, IH.
  destruct (split c x) as [|h t] eqn:Ex; [exfalso; exact (split_nonempty c x Ex)|].
  destruct t as [|h2 t2].
  - cbn [removelast last app].
    destruct (split c (h ++ y)) as [|h' t'] eqn:Ey; [exfalso; exact (split_nonempty c _ Ey)|].
    destruct (Ascii.eqb c d) eqn:Ecd.
    + cbn [removelast last app]. rewrite Ey. reflexivity.
    + cbn [removelast last app].
      change (String d h ++ y)%string with (String d (h ++ y)).
      rewrite split_cons, Ey, Ecd. reflexivity.
  - destruct (Ascii.eqb c d) eqn:Ecd.
    + change (removelast (h :: h2 :: t2)) with (h :: removelast (h2 :: t2)).
      change (last (h :: h2 :: t2) "") with (last (h2 :: t2) "").
      cbn [app].
      change (removelast (EmptyString :: h :: h2 :: t2)) with
        (EmptyString :: h :: removelast (h2 :: t2)).
      change (last (EmptyString :: h :: h2 :: t2) "") with (last (h2 :: t2) "").
        reflexivity.
    + change (removelast (h :: h2 :: t2)) with (h :: removelast (h2 :: t2)).
      change (last (h :: h2 :: t2) "") with (last (h2 :: t2) "").
      cbn [app].
      change (removelast (String d h :: h2 :: t2)) with
        (String d h :: removelast (h2 :: t2)).
      change (last (String d h :: h2 :: t2) "") with (last (h2 :: t2) "").
      reflexivity.
Qed.

Lemma on_line_set_buffer : forall bs st x l,
  on_line bs (set_buffer st x) l = set_buffer (on_line bs st l) x.
Proof.
  intros bs st x l. unfold on_line, set_buffer.
  cbn [buffer currentGame inGame currentBatch batchQueue].
  destruct (is_id_line l); [|reflexivity].
  destruct (inGame st && has_text (currentGame st)); [|reflexivity].
  destruct (bs <=? length (currentBatch st ++ [currentGame st]))%nat; reflexivity.
Qed.

Lemma fold_set_buffer : forall bs ls st x,
  fold_left (on_line bs) ls (set_buffer st x) = set_buffer (fold_left (on_line bs) ls st) x.
Proof.
  intros bs. induction ls as [|l ls IH]; intros st x; [reflexivity|].
  cbn [fold_left]. rewrite on_line_set_buffer. apply IH.
Qed.

Lemma set_set : forall st x y, set_buffer (set_buffer st x) y = set_buffer st y.
Proof. reflexivity. Qed.

Lemma on_data_fold : forall bs st a,
  on_data bs st a =
  set_buffer (fold_left (on_line bs) (removelast (split "010"%char (buffer st ++ a)%string)) st)
    (last (split "010"%char (buffer st ++ a)%string) "").
Proof.
  intros bs st a. unfold on_data. rewrite <- fold_set_buffer. reflexivity.
Qed.

Lemma last_app_ne : forall {A} (l l' : list A) d, l' <> [] -> last (l ++ l')%list d = last l' d.
Proof.
  intros A l l' d H. induction l as [|x l IH]; [reflexivity|].
  cbn [app]. rewrite <- IH. destruct (l ++ l') eqn:E; [|reflexivity].
  apply app_eq_nil in E as [_ E]; contradiction.
Qed.

Lemma on_data_app : forall bs st a b,
  on_data bs (on_data bs st a) b = on_data bs st (a ++ b)%string.
Proof.
  intros bs st a b.
  rewrite (on_data_fold bs st a). rewrite on_data_fold.
  set (L := split "010"%char (buffer st ++ a)).
  change (buffer (set_buffer (fold_left (on_line bs) (removelast L) st) (last L "")))
    with (last L "").
  set (M := split "010"%char (last L "" ++ b)).
  rewrite fold_set_buffer, set_set.
  rewrite on_data_fold. rewrite <- sapp_assoc, split_app. fold L. fold M.
  assert (HM : M <> []) by apply split_nonempty.
  rewrite removelast_app by exact HM. rewrite last_app_ne by exact HM.
  rewrite fold_left_app. reflexivity.
Qed.

Lemma split_last_no_nl : forall s, no_char "010"%char (last (split "010"%char s) "") = true.
Proof.
  induction s as [|d s IH]; [reflexivity|].
  rewrite split_cons. destruct (split "010"%char s) as [|h t] eqn:E;
    [exfalso; exact (split_nonempty _ _ E)|].
  destruct (Ascii.eqb "010"%char d) eqn:Ed.
  - destruct t; [exact IH|]. exact IH.
  - destruct t.
    + cbn [last] in *. cbn [no_char]. rewrite Ed. exact IH.
    + exact IH.
Qed.

Lemma split_no_char : forall c s, no_char c s = true -> split c s = [s].
Proof.
  intros c. induction s as [|d s IH]; intros H; [reflexivity|].
  cbn [no_char] in H. apply andb_prop in H as [Hd H]. apply negb_true_iff in Hd.
  rewrite split_cons, IH by exact H. rewrite Hd. reflexivity.
Qed.

Lemma on_data_empty : forall bs st, no_char "010"%char (buffer st) = true ->
  on_data bs st "" = st.
Proof.
  intros bs st H. rewrite on_data_fold, sapp_nil_r, split_no_char by exact H.
  destruct st; reflexivity.
Qed.

Lemma buffer_on_data : forall bs st a,
  buffer (on_data bs st a) = last (split "010"%char (buffer st ++ a)%string) "".
Proof. intros. rewrite on_data_fold. reflexivity. Qed.

Lemma fold_on_data : forall bs chunks st, no_char "010"%char (buffer st) = true ->
  fold_left (on_data bs) chunks st = on_data bs st (String.concat "" chunks).
Proof.
  intros bs. induction chunks as [|c cs IH]; intros st H.
  - cbn [fold_left]. symmetry. apply on_data_empty; exact H.
  - cbn [fold_left]. rewrite IH by (rewrite buffer_on_data; apply split_last_no_nl).
    rewrite on_data_app, concat_cons. reflexivity.
Qed.

Lemma extract_batches_concat : forall bs chunks,
  extract_batches bs chunks = batchQueue (on_end (on_data bs initial (String.concat "" chunks))).
Proof.
  intros bs chunks. unfold extract_batches. rewrite fold_on_data by reflexivity. reflexivity.
Qed.

Lemma prefix_app : forall p s t, String.prefix p s = true -> String.prefix p (s ++ t)%string = true.
Proof.
  induction p as [|a p IH]; intros s t H; [destruct (s ++ t)%string; reflexivity|].
  destruct s as [|b s]; [discriminate|].
  cbn [append]. simpl in H |- *. destruct (ascii_dec a b); [apply IH; exact H|discriminate].
Qed.

Definition shape_inv (bs : nat) (st : splitter) : Prop :=
  Forall (fun b => length b = bs) (batchQueue st) /\
  (length (currentBatch st) < bs)%nat /\
  Forall (fun g => is_id_line g = true) (currentBatch st) /\
  Forall (Forall (fun g => is_id_line g = true)) (batchQueue st) /\
  (inGame st = true -> is_id_line (currentGame st) = true).

Lemma shape_on_line : forall bs st l, (1 <= bs)%nat -> shape_inv bs st ->
  shape_inv bs (on_line bs st l).
Proof.
  intros bs st l Hbs [Hq [Hc [Hcg [Hqg Hg]]]]. unfold on_line.
  destruct (is_id_line l) eqn:Hl.
  - destruct (inGame st && has_text (currentGame st)) eqn:Hin.
    + apply andb_prop in Hin as [Hin _]. specialize (Hg Hin).
      destruct (bs <=? length (currentBatch st ++ [currentGame st]))%nat eqn:Hle.
      * apply Nat.leb_le in Hle. rewrite length_app in Hle. cbn [length] in Hle.
        repeat split; cbn [batchQueue currentBatch inGame currentGame].
        -- apply Forall_app; split; [exact Hq|]. constructor; [|constructor].
           rewrite length_app; cbn [length]; lia.
        -- cbn [length]; lia.
        -- constructor.
        -- apply Forall_app; split; [exact Hqg|]. constructor; [|constructor].
           apply Forall_app; split; [exact Hcg|]. constructor; [exact Hg|constructor].
        -- intros _. apply prefix_app; exact Hl.
      * apply Nat.leb_gt in Hle.
        repeat split; cbn [batchQueue currentBatch inGame currentGame]; auto.
        -- apply Forall_app; split; [exact Hcg|]. constructor; [exact Hg|constructor].
        -- intros _. apply prefix_app; exact Hl.
    + repeat split; cbn [batchQueue currentBatch inGame currentGame]; auto.
      intros _. apply prefix_app; exact Hl.
  - repeat split; cbn [batchQueue currentBatch inGame currentGame]; auto.
    intros Hin. apply prefix_app; auto.
Qed.

Lemma shape_fold : forall bs ls st, (1 <= bs)%nat -> shape_inv bs st ->
  shape_inv bs (fold_left (on_line bs) ls st).
Proof.
  intros bs. induction ls as [|l ls IH]; intros st Hbs H; [exact H|].
  cbn [fold_left]. apply IH; [exact Hbs|]. apply shape_on_line; auto.
Qed.

Lemma shape_on_data : forall bs st a, (1 <= bs)%nat -> shape_inv bs st ->
  shape_inv bs (on_data bs st a).
Proof.
  intros bs st a Hbs H. unfold on_data. apply shape_fold; [exact Hbs|].
  exact H.
Qed.

Lemma in_removelast_in : forall {A} (l : list A) x, In x (removelast l) -> In x l.
Proof.
  intros A l x. induction l as [|a l IH]; [auto|].
  destruct l as [|b l]; [intros []|]. intros [H|H]; [left; exact H|right; auto].
Qed.

Lemma shape_on_end : forall bs st, (1 <= bs)%nat -> shape_inv bs st ->
  let B := batchQueue (on_end st) in
  Forall (fun b => length b = bs) (removelast B) /\
  Forall (fun b => 1 <= length b <= S bs)%nat B /\
  Forall (Forall (fun g => is_id_line g = true)) B.
Proof.
  intros bs st Hbs [Hq [Hc [Hcg [Hqg Hg]]]] B.
  (* the state after the remainder line *)
  set (st1 := if has_text (buffer st) then
      let line := trim (buffer st) in
      if is_id_line line then
        let cb :=
          if inGame st && has_text (currentGame st)
          then (currentBatch st ++ [currentGame st])%list
          else currentBatch st in
        mkSplitter (buffer st) (line ++ NL)%string true cb (batchQueue st)
      else
        mkSplitter (buffer st) (currentGame st ++ line ++ NL)%string (inGame st)
          (currentBatch st) (batchQueue st)
    else st).
  assert (H1 : batchQueue st1 = batchQueue st /\
               (length (currentBatch st1) <= bs)%nat /\
               Forall (fun g => is_id_line g = true) (currentBatch st1) /\
               (inGame st1 = true -> is_id_line (currentGame st1) = true)).
  { unfold st1. destruct (has_text (buffer st)); [|repeat split; auto; lia].
    cbv zeta. destruct (is_id_line (trim (buffer st))) eqn:Hl.
    - destruct (inGame st && has_text (currentGame st)) eqn:Hin.
      + apply andb_prop in Hin as [Hin _].
        repeat split; cbn [batchQueue currentBatch inGame currentGame].
        * rewrite length_app; cbn [length]; lia.
        * apply Forall_app; split; [exact Hcg|]. constructor; [auto|constructor].
        * intros _. apply prefix_app; exact Hl.
      + repeat split; cbn [batchQueue currentBatch inGame currentGame]; auto; [lia|].
        intros _. apply prefix_app; exact Hl.
    - repeat split; cbn [batchQueue currentBatch inGame currentGame]; auto; [lia|].
      intros Hin. apply prefix_app; auto. }
  destruct H1 as [Eq1 [Hc1 [Hcg1 Hg1]]].
  assert (EB : B = let cb :=
      if inGame st1 && has_text (currentGame st1)
      then (currentBatch st1 ++ [currentGame st1])%list
      else currentBatch st1 in
    if (0 <? length cb)%nat then (batchQueue st1 ++ [cb])%list else batchQueue st1)
    by reflexivity.
  rewrite Eq1 in EB. clearbody st1.
  set (cb := if inGame st1 && has_text (currentGame st1)
             then (currentBatch st1 ++ [currentGame st1])%list else currentBatch st1) in EB.
  assert (Hcb : (length cb <= S bs)%nat /\ Forall (fun g => is_id_line g = true) cb).
  { unfold cb. destruct (inGame st1 && has_text (currentGame st1)) eqn:Hin.
    - apply andb_prop in Hin as [Hin _]. rewrite length_app; cbn [length].
      split; [lia|]. apply Forall_app; split; [exact Hcg1|]. constructor; [auto|constructor].
    - split; [lia|exact Hcg1]. }
  destruct Hcb as [Hcb1 Hcb2]. cbv zeta in EB.
  rewrite EB. destruct (0 <? length cb)%nat eqn:Hpos.
  - apply Nat.ltb_lt in Hpos. rewrite removelast_last.
    split; [exact Hq|]. split.
    + apply Forall_app; split.
      * eapply Forall_impl; [|exact Hq]. intros b Hb. simpl in Hb. lia.
      * constructor; [lia|constructor].
    + apply Forall_app; split; [exact Hqg|]. constructor; [exact Hcb2|constructor].
  - split; [|split].
    + apply Forall_forall. intros b Hb. apply in_removelast_in in Hb.
      rewrite Forall_forall in Hq. auto.
    + eapply Forall_impl; [|exact Hq]. intros b Hb. simpl in Hb. lia.
    + exact Hqg.
Qed.

Lemma shape_initial : forall bs, (1 <= bs)%nat -> shape_inv bs initial.
Proof. intros bs H. repeat split; cbn; auto; try lia; try discriminate. Qed.

(** The lines of the text from the first line that starts a game. *)
Fixpoint from_first_id (ls : list string) : list string :=
  match ls with
  | [] => []
  | l :: ls' => if is_id_line l then ls else from_first_id ls'
  end.

(** A text made of whole lines. *)
Definition lines_text (ls : list string) : string :=
  String.concat "" (map (fun l => l ++ NL)%string ls).

(** The text of a list of batches of games. *)
Definition flat (qs : list (list string)) : string := String.concat "" (concat qs).

Definition emitted (st : splitter) : string :=
  (flat (batchQueue st) ++ String.concat "" (currentBatch st) ++
   (if inGame st then currentGame st else ""))%string.

Lemma concat_app_s : forall a b : list string,
  String.concat "" (a ++ b) = (String.concat "" a ++ String.concat "" b)%string.
Proof.
  induction a as [|x a IH]; intros b; [reflexivity|].
  cbn [app]. rewrite !concat_cons, IH, sapp_assoc. reflexivity.
Qed.

Lemma flat_snoc : forall q cb, flat (q ++ [cb]) = (flat q ++ String.concat "" cb)%string.
Proof.
  intros q cb. unfold flat. rewrite concat_app, concat_app_s. cbn [concat]. rewrite app_nil_r.
  reflexivity.
Qed.

Lemma id_has_text : forall g, is_id_line g = true -> has_text g = true.
Proof.
  intros [|c g] H; [discriminate|].
  assert (Ec : c = "["%char).
  { unfold is_id_line in H. cbn [String.prefix] in H.
    destruct (ascii_dec "[" c) as [E|NE]; [congruence|discriminate]. }
  subst c. unfold has_text, trim. cbn [trim_left]. change (is_space "[") with false. cbn iota.
  cbn [trim_right]. destruct (trim_right g); reflexivity.
Qed.

Lemma emitted_on_line : forall bs st l, inGame st = true ->
  is_id_line (currentGame st) = true ->
  emitted (on_line bs st l) = (emitted st ++ l ++ NL)%string /\
  inGame (on_line bs st l) = true /\ is_id_line (currentGame (on_line bs st l)) = true.
Proof.
  intros bs st l Hin Hg. unfold on_line. rewrite Hin, (id_has_text _ Hg). cbn [andb].
  destruct (is_id_line l) eqn:Hl.
  - destruct (bs <=? length (currentBatch st ++ [currentGame st]))%nat;
      (split; [|split; [reflexivity|apply prefix_app; exact Hl]]);
      unfold emitted; cbn [batchQueue currentBatch inGame currentGame]; rewrite Hin.
    + rewrite flat_snoc, concat_app_s. cbn [String.concat].
      rewrite !sapp_assoc. reflexivity.
    + rewrite concat_app_s. cbn [String.concat]. rewrite !sapp_assoc. reflexivity.
  - split; [|split; [reflexivity|apply prefix_app; exact Hg]].
    unfold emitted; cbn [batchQueue currentBatch inGame currentGame]. rewrite Hin, !sapp_assoc.
    reflexivity.
Qed.

Lemma emitted_fold : forall bs ls st, inGame st = true ->
  is_id_line (currentGame st) = true ->
  emitted (fold_left (on_line bs) ls st) = (emitted st ++ lines_text ls)%string /\
  inGame (fold_left (on_line bs) ls st) = true /\
  is_id_line (currentGame (fold_left (on_line bs) ls st)) = true.
Proof.
  intros bs. induction ls as [|l ls IH]; intros st Hin Hg.
  - cbn [fold_left]. unfold lines_text. cbn. rewrite sapp_nil_r. auto.
  - cbn [fold_left]. destruct (emitted_on_line bs st l Hin Hg) as [E [Hin' Hg']].
    destruct (IH _ Hin' Hg') as [E2 R]. split; [|exact R].
    rewrite E2, E. unfold lines_text. cbn [map]. rewrite concat_cons, !sapp_assoc. reflexivity.
Qed.

Lemma emitted_pre : forall bs ls st, inGame st = false -> batchQueue st = [] ->
  currentBatch st = [] ->
  emitted (fold_left (on_line bs) ls st) = lines_text (from_first_id ls) /\
  (inGame (fold_left (on_line bs) ls st) = true ->
   is_id_line (currentGame (fold_left (on_line bs) ls st)) = true).
Proof.
  intros bs. induction ls as [|l ls IH]; intros st Hin Hq Hc.
  - cbn [fold_left from_first_id]. unfold emitted. rewrite Hin, Hq, Hc.
    split; [reflexivity|congruence].
  - cbn [fold_left from_first_id]. destruct (is_id_line l) eqn:Hl.
    + assert (E : on_line bs st l = mkSplitter (buffer st) (l ++ NL) true [] []).
      { unfold on_line. rewrite Hl, Hin, Hq, Hc. reflexivity. }
      rewrite E.
      destruct (emitted_fold bs ls (mkSplitter (buffer st) (l ++ NL) true [] []) eq_refl
                  (prefix_app _ _ _ Hl)) as [E2 [_ Hg]].
      split; [|intros; exact Hg].
      rewrite E2. unfold emitted, lines_text, flat. cbn [map concat batchQueue currentBatch inGame currentGame]. rewrite concat_cons. reflexivity.
    + assert (E : on_line bs st l =
                  mkSplitter (buffer st) (currentGame st ++ l ++ NL) false [] []).
      { unfold on_line. rewrite Hl, Hin, Hq, Hc. reflexivity. }
      rewrite E. apply IH; reflexivity.
Qed.

Lemma emitted_on_end : forall st, buffer st = "" ->
  (inGame st = true -> is_id_line (currentGame st) = true) ->
  flat (batchQueue (on_end st)) = emitted st.
Proof.
  intros st Hb Hg. unfold on_end. rewrite Hb. change (has_text "") with false. cbv zeta iota.
  unfold emitted.
  destruct (inGame st) eqn:Hin.
  - rewrite (id_has_text _ (Hg eq_refl)). cbn [andb batchQueue].
    rewrite length_app. cbn [length].
    replace (0 <? length (currentBatch st) + 1)%nat with true by (symmetry; apply Nat.ltb_lt; lia).
    rewrite flat_snoc, concat_app_s. cbn [String.concat]. rewrite ?sapp_assoc. reflexivity.
  - cbn [andb batchQueue]. rewrite sapp_nil_r.
    destruct (currentBatch st) as [|g cb] eqn:Ec.
    + cbn. rewrite sapp_nil_r. reflexivity.
    + replace (0 <? length (g :: cb))%nat with true by reflexivity.
      rewrite flat_snoc. reflexivity.
Qed.

Lemma split_lines : forall ls, Forall (fun l => no_char "010"%char l = true) ls ->
  split "010"%char (lines_text ls) = ls ++ [""].
Proof.
  intros ls H. unfold lines_text. induction H as [|l ls Hl Hls IH]; [reflexivity|].
  cbn [map]. rewrite concat_cons, sapp_assoc. change NL with (String "010"%char "").
  cbn [append]. rewrite split_field by exact Hl. fold NL. rewrite IH. reflexivity.
Qed.

End SplitterFacts.

Module SplitterProps.
Import Js GameSplitter LineFacts SplitterFacts.
Local Open Scope list_scope.

(** The batches do not depend on how the input stream is cut into chunks. *)
Theorem batches_independent_of_chunking : forall bs chunks,
  extract_batches bs chunks = extract_batches bs [String.concat "" chunks].
Proof. intros bs chunks. rewrite !extract_batches_concat. reflexivity. Qed.

(** Every batch but the last has exactly batchSize games, every batch has
    between 1 and batchSize + 1 games, and every game starts with an ID line. *)
Theorem batch_shapes : forall bs chunks, (1 <= bs)%nat ->
  let B := extract_batches bs chunks in
  Forall (fun b => length b = bs) (removelast B) /\
  Forall (fun b => 1 <= length b <= S bs)%nat B /\
  Forall (Forall (fun g => is_id_line g = true)) B.
Proof.
  intros bs chunks Hbs B. unfold B. rewrite extract_batches_concat.
  apply shape_on_end; [exact Hbs|].
  apply shape_on_data; [exact Hbs|]. apply shape_initial; exact Hbs.
Qed.

Lemma batch_shapes_witness : (1 <= 1)%nat /\
  let B := extract_batches 1 ["[ID a]" ++ NL ++ "x"; NL ++ "[ID b]"]%string in
  Forall (fun b => length b = 1%nat) (removelast B) /\
  Forall (fun b => 1 <= length b <= 2)%nat B /\
  Forall (Forall (fun g => is_id_line g = true)) B.
Proof. split; [lia|]. apply (batch_shapes 1 _). lia. Defined.

(** For an input made of whole lines, the games of all batches, put back
    together, are exactly the input from its first ID line on: nothing is lost,
    duplicated or reordered. *)
Theorem batches_keep_text : forall bs chunks ls,
  Forall (fun l => no_char "010"%char l = true) ls ->
  String.concat "" chunks = lines_text ls ->
  flat (extract_batches bs chunks) = lines_text (from_first_id ls).
Proof.
  intros bs chunks ls Hls Hc. rewrite extract_batches_concat, Hc, on_data_fold.
  change (buffer initial ++ lines_text ls)%string with (lines_text ls).
  rewrite (split_lines ls Hls), removelast_last, last_last.
  destruct (emitted_pre bs ls initial eq_refl eq_refl eq_refl) as [E Hg].
  rewrite emitted_on_end; [exact E|reflexivity|exact Hg].
Qed.

Lemma batches_keep_text_witness :
  Forall (fun l => no_char "010"%char l = true) ["a"; "[ID a]"; "x"; "[ID b]"] /\
  String.concat "" ["a" ++ NL ++ "[ID a]" ++ NL ++ "x"; NL ++ "[ID b]" ++ NL]%string =
    lines_text ["a"; "[ID a]"; "x"; "[ID b]"] /\
  flat (extract_batches 1 ["a" ++ NL ++ "[ID a]" ++ NL ++ "x"; NL ++ "[ID b]" ++ NL]%string) =
    lines_text (from_first_id ["a"; "[ID a]"; "x"; "[ID b]"]).
Proof.
  assert (H1 : Forall (fun l => no_char "010"%char l = true) ["a"; "[ID a]"; "x"; "[ID b]"])
    by (repeat constructor).
  assert (H2 : String.concat "" ["a" ++ NL ++ "[ID a]" ++ NL ++ "x"; NL ++ "[ID b]" ++ NL]%string =
    lines_text ["a"; "[ID a]"; "x"; "[ID b]"]) by reflexivity.
  split; [exact H1|split; [exact H2|]]. exact (batches_keep_text 1 _ _ H1 H2).
Defined.

End SplitterProps.

Module ChunkWriterContent.
Import ChunkWriter.
Local Open Scope list_scope.

(** The chunk line and the index lines [writePositionsToChunk] writes for a
    position. *)
Definition chunk_line (p : position) : string :=
  (p_fen p ++ "|" ++ p_result p ++ Js.NL)%string.

Definition index_line (p : position) : list string :=
  match truthy (p_gameId p) with
  | Some g => [(p_fen p ++ Js.TAB ++ g ++ Js.NL)%string]
  | None => []
  end.

Definition index_header : string := ("fen" ++ Js.TAB ++ "game_id" ++ Js.NL)%string.

Lemma write_one_content : forall st p, indexLines st <> [] ->
  concat (chunk_files (write_one st p)) = concat (chunk_files st) ++ [chunk_line p] /\
  indexLines (write_one st p) = indexLines st ++ index_line p /\
  positionsProcessed (write_one st p) = S (positionsProcessed st).
Proof.
  intros [csz ci pic pp closed cur idx] p Hidx; cbn [indexLines] in Hidx.
  unfold write_one, chunk_files, index_line, chunk_line; cbn [chunkSize positionsInCurrentChunk].
  destruct (csz <=? pic)%nat; cbn.
  - destruct idx as [|i idx]; [congruence|].
    rewrite !concat_app. cbn. rewrite !app_nil_r.
    split; [reflexivity|]. destruct (truthy (p_gameId p)); rewrite ?app_nil_r; auto.
  - rewrite !concat_app. cbn. rewrite !app_nil_r, app_assoc.
    split; [reflexivity|]. destruct (truthy (p_gameId p)); rewrite ?app_nil_r; auto.
Qed.

Lemma writePositions_content : forall ps st, indexLines st <> [] ->
  concat (chunk_files (writePositionsToChunk st ps)) =
    concat (chunk_files st) ++ map chunk_line ps /\
  indexLines (writePositionsToChunk st ps) = indexLines st ++ flat_map index_line ps /\
  positionsProcessed (writePositionsToChunk st ps) = positionsProcessed st + length ps.
Proof.
  unfold writePositionsToChunk.
  induction ps as [|p ps IH]; intros st Hidx.
  - cbn. rewrite !app_nil_r. auto.
  - cbn [fold_left]. destruct (write_one_content st p Hidx) as (E1 & E2 & E3).
    assert (Hidx' : indexLines (write_one st p) <> []).
    { rewrite E2. destruct (indexLines st); [congruence|discriminate]. }
    destruct (IH _ Hidx') as (F1 & F2 & F3).
    rewrite F1, F2, F3, E1, E2, E3. cbn [map flat_map length].
    rewrite <- !app_assoc. split; [reflexivity|split; [reflexivity|lia]].
Qed.

Lemma write_batches_content : forall bs st, indexLines st <> [] ->
  concat (chunk_files (write_batches st bs)) =
    concat (chunk_files st) ++ map chunk_line (concat bs) /\
  indexLines (write_batches st bs) = indexLines st ++ flat_map index_line (concat bs) /\
  positionsProcessed (write_batches st bs) = positionsProcessed st + length (concat bs).
Proof.
  unfold write_batches.
  induction bs as [|b bs IH]; intros st Hidx.
  - cbn. rewrite !app_nil_r. auto.
  - cbn [fold_left]. destruct (writePositions_content b st Hidx) as (E1 & E2 & E3).
    assert (Hidx' : indexLines (writePositionsToChunk st b) <> []).
    { rewrite E2. destruct (indexLines st); [congruence|discriminate]. }
    destruct (IH _ Hidx') as (F1 & F2 & F3).
    rewrite F1, F2, F3, E1, E2, E3. cbn [concat].
    rewrite map_app, flat_map_app, length_app, <- !app_assoc.
    split; [reflexivity|split; [reflexivity|lia]].
Qed.

End ChunkWriterContent.

Module ChunkWriterProps.
Import ChunkWriter ChunkWriterContent.
Local Open Scope list_scope.

(** Whatever the chunk size and however the positions arrive in batches, the
    chunk files, read in order, hold one fen|result line per position in
    arrival order, the index file holds its header and then one fen TAB gameId
    line per position with a non-empty game id, and positionsProcessed counts
    every position. *)
Theorem writer_keeps_every_position : forall cs batches,
  let st := write_batches (start cs) batches in
  concat (chunk_files st) = map chunk_line (concat batches) /\
  indexLines st = index_header :: flat_map index_line (concat batches) /\
  positionsProcessed st = length (concat batches).
Proof.
  intros cs batches st. unfold st.
  destruct (write_batches_content batches (start cs)) as (E1 & E2 & E3); [discriminate|].
  rewrite E1, E2, E3. split; [reflexivity|split; reflexivity].
Qed.

End ChunkWriterProps.

Module FenFacts.
Import Js FenWorker LineFacts ReaderFacts SplitterFacts.
Local Open Scope list_scope.

Lemma split_parts : forall c s, Forall (fun p => no_char c p = true) (split c s).
Proof.
  intros c. induction s as [|d s IH]; [repeat constructor|].
  rewrite split_cons. destruct (split c s) as [|h t] eqn:E;
    [exfalso; exact (split_nonempty _ _ E)|].
  inversion IH as [|? ? Hh Ht]; subst.
  destruct (Ascii.eqb c d) eqn:Ed.
  - constructor; [reflexivity|constructor; assumption].
  - constructor; [|assumption]. cbn [no_char]. rewrite Ed. exact Hh.
Qed.

Definition norm_parts (parts : list string) : string :=
  let part k := match nth_error parts k with Some p => p | None => "undefined" end in
  (part 0 ++ " " ++ part 1 ++ " " ++ part 2 ++ " " ++ part 3 ++ " 0 1")%string.

Lemma normalizeFen_parts : forall fen, normalizeFen fen = norm_parts (split " " fen).
Proof. reflexivity. Qed.

Lemma part_no_space : forall fen k,
  no_char " " (match nth_error (split " " fen) k with Some p => p | None => "undefined" end) = true.
Proof.
  intros fen k. destruct (nth_error (split " " fen) k) as [p|] eqn:E; [|reflexivity].
  apply nth_error_In in E. exact (proj1 (Forall_forall _ _) (split_parts " " fen) p E).
Qed.

Lemma split_four : forall a b c d,
  no_char " " a = true -> no_char " " b = true -> no_char " " c = true -> no_char " " d = true ->
  split " " (a ++ " " ++ b ++ " " ++ c ++ " " ++ d ++ " 0 1")%string = [a; b; c; d; "0"; "1"].
Proof.
  intros a b c d Ha Hb Hc Hd. cbn [append].
  rewrite split_field by exact Ha. rewrite split_field by exact Hb.
  rewrite split_field by exact Hc. rewrite split_field by exact Hd. reflexivity.
Qed.

Lemma part_nth : forall (l : list string) k,
  match nth_error l k with Some p => p | None => "undefined" end = nth k l "undefined".
Proof.
  intros l k. destruct (nth_error l k) eqn:E.
  - symmetry. apply nth_error_nth. exact E.
  - symmetry. apply nth_overflow. apply nth_error_None. exact E.
Qed.

Lemma extractResult_token : forall s t, extractResult s = Some t -> In t result_tokens.
Proof.
  induction s as [|c s IH]; intros t H; [discriminate|].
  cbn [extractResult] in H. destruct (is_space c); [|exact (IH _ H)].
  destruct (token_at (trim_left s)) as [t'|] eqn:E; [|exact (IH _ H)].
  injection H as <-. unfold token_at in E. apply find_some in E. exact (proj1 E).
Qed.

Lemma id_at_nonempty : forall s v, id_at s = Some v -> v <> "".
Proof.
  intros s v H. unfold id_at in H.
  repeat match type of H with
         | context [match ?x with _ => _ end] => destruct x
         end; try discriminate.
  injection H as <-. discriminate.
Qed.

Lemma extractGameId_nonempty : forall s v, extractGameId s = Some v -> v <> "".
Proof.
  induction s as [|c s IH]; intros v H; cbn [extractGameId] in H.
  - destruct (id_at "") eqn:E; [|discriminate]. injection H as <-. exact (id_at_nonempty _ _ E).
  - destruct (id_at (String c s)) eqn:E.
    + injection H as <-. exact (id_at_nonempty _ _ E).
    + exact (IH _ H).
Qed.

Lemma normalizeFen_split : forall fen,
  split " " (normalizeFen fen) =
  [nth 0 (split " " fen) "undefined"; nth 1 (split " " fen) "undefined";
   nth 2 (split " " fen) "undefined"; nth 3 (split " " fen) "undefined"; "0"; "1"].
Proof.
  intros fen. rewrite normalizeFen_parts. unfold norm_parts. cbv zeta.
  rewrite split_four by apply part_no_space. rewrite !part_nth. reflexivity.
Qed.

Lemma normalizeFen_idem : forall fen, normalizeFen (normalizeFen fen) = normalizeFen fen.
Proof.
  intros fen. rewrite (normalizeFen_parts (normalizeFen fen)), normalizeFen_split.
  unfold norm_parts. cbv zeta. cbn [nth_error]. rewrite normalizeFen_parts.
  unfold norm_parts. cbv zeta. rewrite !part_nth. reflexivity.
Qed.

Lemma take_nonquote_app : forall v r, no_char QUOTE v = true ->
  take_nonquote (v ++ String QUOTE r) = (v, String QUOTE r).
Proof.
  induction v as [|c v IH]; intros r H.
  - reflexivity.
  - cbn [no_char] in H. apply andb_prop in H as [Hc H]. apply negb_true_iff in Hc.
    cbn [append take_nonquote]. rewrite Ascii.eqb_sym, Hc, IH by exact H. reflexivity.
Qed.

Lemma id_at_tag : forall r,
  id_at (String "[" (String "I" (String "D" (String " " (String QUOTE r))))) =
  match take_nonquote r with
  | (String _ _ as v, String q' (String "]" _)) => if Ascii.eqb q' QUOTE then Some v else None
  | _ => None
  end.
Proof. reflexivity. Qed.

Section Engine.
Context {Board : Type} (newBoard : Board) (fen : Board -> string)
  (move : Board -> string -> option Board) (loadPgn : string -> option (list string)).

Lemma replay_records : forall h b r id acc,
  Forall (fun p => exists b', p = record fen b' r id) (replay fen move b h r id acc) <->
  Forall (fun p => exists b', p = record fen b' r id) acc.
Proof.
  induction h as [|san h IH]; intros b r id acc; cbn [replay].
  - rewrite Forall_app. split; [intros [H _]; exact H|].
    intros H. split; [exact H|]. constructor; [eauto|constructor].
  - destruct (move b san) as [b'|].
    + rewrite IH, Forall_app. split; [intros [H _]; exact H|].
      intros H. split; [exact H|]. constructor; [eauto|constructor].
    + rewrite Forall_app. split; [intros [H _]; exact H|].
      intros H. split; [exact H|]. constructor; [eauto|constructor].
Qed.

(** The boards of a replay where every move succeeds. *)
Fixpoint boards (b : Board) (h : list string) : option (list Board) :=
  match h with
  | [] => Some [b]
  | san :: h' =>
      match move b san with
      | None => None
      | Some b' => option_map (cons b) (boards b' h')
      end
  end.

Lemma replay_boards : forall h b bs r id acc, boards b h = Some bs ->
  replay fen move b h r id acc = acc ++ map (fun b' => record fen b' r id) bs.
Proof.
  induction h as [|san h IH]; intros b bs r id acc H; cbn [boards replay] in *.
  - injection H as <-. reflexivity.
  - destruct (move b san) as [b'|]; [|discriminate].
    destruct (boards b' h) as [bs'|] eqn:E; [|discriminate]. injection H as <-.
    rewrite (IH _ _ _ _ _ E). rewrite <- app_assoc. reflexivity.
Qed.

Lemma boards_length : forall h b bs, boards b h = Some bs -> length bs = S (length h).
Proof.
  induction h as [|san h IH]; intros b bs H; cbn [boards] in H.
  - injection H as <-. reflexivity.
  - destruct (move b san) as [b'|]; [|discriminate].
    destruct (boards b' h) as [bs'|] eqn:E; [|discriminate]. injection H as <-.
    cbn [length]. rewrite (IH _ _ E). reflexivity.
Qed.

End Engine.

End FenFacts.

Module FenProps.
Import Js ChunkWriter FenWorker FenFacts LineFacts.
Local Open Scope list_scope.

(** Whatever the chess engine does, every position record of a game carries
    a decisive or drawn result (1-0, 0-1 or 1/2-1/2, never the star), the
    game's ID as extractGameId reads it, which is never empty, and a FEN
    already normalized by normalizeFen. *)
Theorem processGame_records : forall {Board : Type} (newBoard : Board) fen move loadPgn g,
  Forall (fun p =>
    In (p_result p) ["1-0"; "0-1"; "1/2-1/2"] /\
    p_gameId p = extractGameId g /\ p_gameId p <> Some "" /\
    normalizeFen (p_fen p) = p_fen p)
    (processGame newBoard fen move loadPgn g).
Proof.
  intros Board newBoard fen move loadPgn g. unfold processGame.
  destruct (extractResult g) as [r|] eqn:Er; [|constructor].
  destruct (String.eqb r "*") eqn:Es; [constructor|].
  destruct (extractGameId g) as [id|] eqn:Eg; [|constructor].
  destruct (loadPgn g) as [h|]; [|constructor].
  assert (H := proj2 (replay_records fen move h newBoard r id []) (Forall_nil _)).
  apply (Forall_impl _ (fun p Hp => Hp)) in H. revert H. apply Forall_impl.
  intros p [b ->]. unfold record; cbn [p_result p_gameId p_fen].
  split; [|split; [reflexivity|split]].
  - apply extractResult_token in Er. unfold result_tokens in Er.
    destruct Er as [<-|[<-|[<-|[<-|[]]]]]; cbn; auto. discriminate.
  - apply extractGameId_nonempty in Eg. congruence.
  - apply normalizeFen_idem.
Qed.

(** When the game has a result other than the star and an ID, loadPgn gives
    the move list h, and every move of h can be played from the initial
    board, visiting the boards bs, then processGame returns one record per
    board of bs, in order: the position before each move and the final one,
    so length h + 1 records. *)
Theorem processGame_full_replay : forall {Board : Type} (newBoard : Board) fen move loadPgn
  g r id h bs,
  extractResult g = Some r -> r <> "*" -> extractGameId g = Some id ->
  loadPgn g = Some h -> boards move newBoard h = Some bs ->
  processGame newBoard fen move loadPgn g = map (fun b => record fen b r id) bs /\
  length (processGame newBoard fen move loadPgn g) = S (length h).
Proof.
  intros Board newBoard fen move loadPgn g r id h bs Er Hr Eg Eh Eb.
  assert (E : processGame newBoard fen move loadPgn g = map (fun b => record fen b r id) bs).
  { unfold processGame. rewrite Er.
    replace (String.eqb r "*") with false by (symmetry; apply String.eqb_neq; exact Hr).
    rewrite Eg, Eh. exact (replay_boards fen move h newBoard bs r id [] Eb). }
  split; [exact E|]. rewrite E, length_map. exact (boards_length move h newBoard bs Eb).
Qed.

Definition sample_game : string :=
  ("[ID " ++ String QUOTE "g1" ++ String QUOTE "]" ++ NL ++ NL ++ "1. e4 e5 1-0")%string.

Lemma processGame_full_replay_witness :
  let fen := fun _ : nat => "8/8/8/8/8/8/8/8 w - - 4 9" in
  let move := fun (n : nat) (_ : string) => Some (S n) in
  let loadPgn := fun _ : string => Some ["e4"; "e5"] in
  extractResult sample_game = Some "1-0" /\ "1-0" <> "*" /\
  extractGameId sample_game = Some "g1" /\ loadPgn sample_game = Some ["e4"; "e5"] /\
  boards move 0%nat ["e4"; "e5"] = Some [0; 1; 2]%nat /\
  processGame 0%nat fen move loadPgn sample_game =
    map (fun b => record fen b "1-0" "g1") [0; 1; 2]%nat /\
  length (processGame 0%nat fen move loadPgn sample_game) = S (length ["e4"; "e5"]).
Proof.
  intros fen move loadPgn.
  assert (H1 : extractResult sample_game = Some "1-0") by (vm_compute; reflexivity).
  assert (H2 : "1-0" <> "*") by discriminate.
  assert (H3 : extractGameId sample_game = Some "g1") by (vm_compute; reflexivity).
  assert (H4 : loadPgn sample_game = Some ["e4"; "e5"]) by reflexivity.
  assert (H5 : boards move 0%nat ["e4"; "e5"] = Some [0; 1; 2]%nat) by reflexivity.
  split; [exact H1|split; [exact H2|split; [exact H3|split; [exact H4|split; [exact H5|]]]]].
  exact (processGame_full_replay 0%nat fen move loadPgn _ _ _ _ _ H1 H2 H3 H4 H5).
Defined.

(** normalizeFen keeps the first four space-separated fields of the FEN
    (undefined for a missing one) and replaces the move counters by 0 1: the
    result splits into exactly these six fields, and normalizing twice
    changes nothing. *)
Theorem normalizeFen_fields : forall fen,
  split " " (normalizeFen fen) =
    [nth 0 (split " " fen) "undefined"; nth 1 (split " " fen) "undefined";
     nth 2 (split " " fen) "undefined"; nth 3 (split " " fen) "undefined"; "0"; "1"] /\
  normalizeFen (normalizeFen fen) = normalizeFen fen.
Proof. intros fen. split; [apply normalizeFen_split|apply normalizeFen_idem]. Qed.

(** A tag [ID "v"] at the start of a game text is read back by extractGameId
    as v, for any non-empty v without a double quote. *)
Theorem extractGameId_tag : forall v rest, v <> "" -> no_char QUOTE v = true ->
  extractGameId ("[ID " ++ String QUOTE (v ++ String QUOTE ("]" ++ rest)))%string = Some v.
Proof.
  intros v rest Hv Hq.
  change ("[ID " ++ String QUOTE (v ++ String QUOTE ("]" ++ rest)))%string with
    (String "[" (String "I" (String "D" (String " " (String QUOTE (v ++ String QUOTE ("]" ++ rest))))))).
  cbn [extractGameId]. rewrite id_at_tag, take_nonquote_app by exact Hq.
  destruct v as [|c v']; [congruence|]. reflexivity.
Qed.

Lemma extractGameId_tag_witness :
  "g1" <> "" /\ no_char QUOTE "g1" = true /\
  extractGameId ("[ID " ++ String QUOTE ("g1" ++ String QUOTE ("]" ++ NL ++ "1. e4 1-0")))%string
    = Some "g1".
Proof.
  assert (H1 : "g1" <> "") by discriminate.
  assert (H2 : no_char QUOTE "g1" = true) by reflexivity.
  split; [exact H1|split; [exact H2|]]. exact (extractGameId_tag "g1" _ H1 H2).
Defined.

End FenProps.

Module WorkerBatchProps.
Import WorkerBatch.
Local Open Scope list_scope.

Lemma handle_spec : forall {Board : Type} (newBoard : Board) fen move loadPgn games acc n,
  handle newBoard fen move loadPgn games acc n =
    (acc ++ flat_map (FenWorker.processGame newBoard fen move loadPgn)
              (filter (fun g => negb (String.eqb g "")) games),
     n + length (filter (fun g => negb (String.eqb g "")) games))%nat.
Proof.
  intros Board newBoard fen move loadPgn.
  induction games as [|g gs IH]; intros acc n; [cbn; rewrite app_nil_r; f_equal; lia|].
  cbn [handle filter]. destruct (String.eqb g "").
  - cbn [negb]. apply IH.
  - cbn [negb flat_map length]. rewrite IH, <- app_assoc. f_equal; lia.
Qed.

(** The worker's batch result lists the positions of the non-empty games of
    the batch, game after game in batch order, and counts those games;
    empty game texts are skipped and not counted. *)
Theorem handleBatch_spec : forall {Board : Type} (newBoard : Board) fen move loadPgn games,
  let kept := filter (fun g => negb (String.eqb g "")) games in
  handleBatch newBoard fen move loadPgn games =
    (flat_map (FenWorker.processGame newBoard fen move loadPgn) kept, length kept).
Proof.
  intros Board newBoard fen move loadPgn games kept. unfold kept, handleBatch.
  rewrite handle_spec. reflexivity.
Qed.

End WorkerBatchProps.

Module OutputFacts.
Import Js ChunkSorter ChunkSorterFacts ChunkSorterClaims FinalOutput LineFacts ReaderFacts.
Local Open Scope list_scope.




Lemma sorted_impl : forall {A} (R R' : A -> A -> Prop) l,
  (forall a b, R a b -> R' a b) -> Sorted R l -> Sorted R' l.
Proof.
  intros A R R' l HR H. induction H as [|x l Hl IH Hhd]; constructor; [exact IH|].
  destruct Hhd; constructor. apply HR; assumption.
Qed.


Definition hdr : string :=
  "fen" ++ TAB ++ "occurrence" ++ TAB ++ "white" ++ TAB ++ "black" ++ TAB ++ "draw".

Lemma header_render : forall X, (header ++ render X)%string = render (hdr :: X).
Proof. intros X. reflexivity. Qed.

Lemma hdr_no_break : no_break hdr = true.
Proof. reflexivity. Qed.

Lemma render_app : forall a b, render (a ++ b) = (render a ++ render b)%string.
Proof.
  induction a as [|x a IH]; intros b; [reflexivity|].
  cbn [app render]. rewrite IH, sapp_assoc. reflexivity.
Qed.

Lemma concat_render : forall (g : nat -> string) parts is,
  Forall (fun i => g i = render (parts i)) is ->
  String.concat "" (map g is) = render (flat_map parts is).
Proof.
  intros g parts is H. induction H as [|i is Hi His IH]; [reflexivity|].
  cbn [map flat_map]. rewrite concat_cons, IH, Hi, render_app. reflexivity.
Qed.

(** The lines after the header of a file, none when it is missing. *)
Definition tail_list (f : fs) (p : string) : list string :=
  match fs_lookup f p with
  | Some c => tl (readline_lines c)
  | None => []
  end.

Lemma tail_lines_list : forall f p, tail_lines f p = render (tail_list f p).
Proof. intros f p. unfold tail_lines, tail_list. destruct (fs_lookup f p); reflexivity. Qed.

Lemma Forall_tl : forall {A} (P : A -> Prop) l, Forall P l -> Forall P (tl l).
Proof. intros A P l H. destruct H; [constructor|assumption]. Qed.

Lemma tail_list_no_break : forall f p, Forall (fun l => no_break l = true) (tail_list f p).
Proof.
  intros f p. unfold tail_list. destruct (fs_lookup f p); [|constructor].
  apply Forall_tl, readline_no_break.
Qed.

Lemma path_join_ne : forall d a b, a <> b -> path_join d a <> path_join d b.
Proof.
  intros d a b Hab H. unfold path_join in H. apply PhaseFacts.sapp_cancel_l in H.
  injection H. exact Hab.
Qed.

Lemma eqb_ne : forall a b, a <> b -> String.eqb a b = false.
Proof. intros a b H. apply String.eqb_neq. exact H. Qed.

Definition partition_indices : list nat := [9; 8; 7; 6; 5; 4; 3; 2]%nat.

Lemma countLines_render : forall f p X, fs_lookup f p = Some (render (hdr :: X)) ->
  Forall (fun l => no_break l = true) X -> countLines f p = length X.
Proof.
  intros f p X H HX. unfold countLines. rewrite H, readline_render.
  - cbn [length]. lia.
  - constructor; [exact hdr_no_break|exact HX].
Qed.

Lemma gen_files : forall tempDir outputDir f parts,
  Forall (fun i => piped f (partition_file tempDir i) = render (parts i) /\
                   Forall (fun l => no_break l = true) (parts i)) partition_indices ->
  path_join tempDir "1occ.tmp" <> path_join outputDir "fens-withoutone.tsv" ->
  let g := generateFinalFiles tempDir outputDir f in
  let X := tail_list f (path_join outputDir "fens-onlyrecurrent.tsv") ++
           flat_map parts partition_indices in
  fs_lookup g (path_join outputDir "fens-withoutone.tsv") = Some (render (hdr :: X)) /\
  fs_lookup g (path_join outputDir "fens-all.tsv") =
    Some (render (hdr :: X) ++ piped f (path_join tempDir "1occ.tmp"))%string /\
  Forall (fun l => no_break l = true) X /\
  (forall q, q <> path_join outputDir "fens-withoutone.tsv" ->
             q <> path_join outputDir "fens-all.tsv" -> fs_lookup g q = fs_lookup f q).
Proof.
  intros tempDir outputDir f parts Hparts Hdist g X.
  set (wo := path_join outputDir "fens-withoutone.tsv").
  set (all := path_join outputDir "fens-all.tsv").
  assert (Hwa : wo <> all) by (apply path_join_ne; discriminate).
  assert (HX : Forall (fun l => no_break l = true) X).
  { apply Forall_app. split; [apply tail_list_no_break|].
    apply Forall_flat_map. revert Hparts. apply Forall_impl. intros i [_ Hi]. exact Hi. }
  assert (E1 : (header ++ tail_lines f (path_join outputDir "fens-onlyrecurrent.tsv") ++
               String.concat "" (map (fun i => piped f (partition_file tempDir i))
                                   partition_indices))%string = render (hdr :: X)).
  { rewrite (concat_render _ parts).
    - rewrite tail_lines_list, <- render_app. reflexivity.
    - revert Hparts. apply Forall_impl. intros i [Hi _]. exact Hi. }
  unfold g, generateFinalFiles. fold wo all. change [9; 8; 7; 6; 5; 4; 3; 2]%nat with partition_indices.
  rewrite E1.
  assert (E2 : tail_lines (fs_write f wo (render (hdr :: X))) wo = render X).
  { unfold tail_lines. rewrite fs_lookup_write, String.eqb_refl, readline_render; [reflexivity|].
    constructor; [exact hdr_no_break|exact HX]. }
  assert (E3 : piped (fs_write f wo (render (hdr :: X))) (path_join tempDir "1occ.tmp") =
               piped f (path_join tempDir "1occ.tmp")).
  { unfold piped. rewrite fs_lookup_write, eqb_ne by exact Hdist. reflexivity. }
  rewrite E2, E3. split; [|split; [|split; [exact HX|]]].
  - rewrite fs_lookup_write, eqb_ne by exact Hwa. rewrite fs_lookup_write, String.eqb_refl.
    reflexivity.
  - rewrite fs_lookup_write, String.eqb_refl. rewrite <- sapp_assoc. reflexivity.
  - intros q Hq1 Hq2. rewrite fs_lookup_write, eqb_ne by exact Hq2.
    rewrite fs_lookup_write, eqb_ne by exact Hq1. reflexivity.
Qed.

End OutputFacts.

Module OutputProps.
Import Js ChunkSorter ChunkSorterFacts ChunkSorterClaims FinalOutput OutputFacts.
Local Open Scope list_scope.


(** When the partition files 9occ.tmp down to 2occ.tmp each hold whole lines
    (or are missing) and 1occ.tmp is not fens-withoutone.tsv itself,
    generateFinalFiles writes fens-withoutone.tsv as the header, the lines of
    fens-onlyrecurrent.tsv after its header, then the partitions from 9 down
    to 2; fens-all.tsv is exactly fens-withoutone.tsv followed by the bytes of
    1occ.tmp; no other file changes. *)
Theorem generateFinalFiles_contents : forall tempDir outputDir f parts,
  Forall (fun i => piped f (partition_file tempDir i) = render (parts i) /\
                   Forall (fun l => no_break l = true) (parts i)) [9; 8; 7; 6; 5; 4; 3; 2]%nat ->
  path_join tempDir "1occ.tmp" <> path_join outputDir "fens-withoutone.tsv" ->
  let g := generateFinalFiles tempDir outputDir f in
  let W := (header ++ tail_lines f (path_join outputDir "fens-onlyrecurrent.tsv") ++
            render (flat_map parts [9; 8; 7; 6; 5; 4; 3; 2]%nat))%string in
  fs_lookup g (path_join outputDir "fens-withoutone.tsv") = Some W /\
  fs_lookup g (path_join outputDir "fens-all.tsv") =
    Some (W ++ piped f (path_join tempDir "1occ.tmp"))%string /\
  (forall q, q <> path_join outputDir "fens-withoutone.tsv" ->
             q <> path_join outputDir "fens-all.tsv" -> fs_lookup g q = fs_lookup f q).
Proof.
  intros tempDir outputDir f parts Hparts Hdist g W.
  destruct (gen_files tempDir outputDir f parts Hparts Hdist) as (E1 & E2 & _ & E3).
  assert (EW : W = render (hdr :: tail_list f (path_join outputDir "fens-onlyrecurrent.tsv") ++
                             flat_map parts partition_indices)).
  { unfold W. rewrite tail_lines_list, <- render_app. reflexivity. }
  rewrite EW. split; [exact E1|split; [exact E2|exact E3]].
Qed.

Definition sample_fs : fs :=
  [("out/fens-onlyrecurrent.tsv", render [hdr; "k" ++ TAB ++ "12"]);
   ("tmp/2occ.tmp", render ["b" ++ TAB ++ "2"]);
   ("tmp/1occ.tmp", render ["c" ++ TAB ++ "1"])]%string.

Definition sample_parts (i : nat) : list string :=
  if Nat.eqb i 2 then ["b" ++ TAB ++ "2"]%string else [].

Lemma sample_parts_ok :
  Forall (fun i => piped sample_fs (partition_file "tmp" i) = render (sample_parts i) /\
                   Forall (fun l => no_break l = true) (sample_parts i)) [9; 8; 7; 6; 5; 4; 3; 2]%nat.
Proof.
  repeat (apply Forall_cons; [split; [vm_compute; reflexivity|
            repeat (apply Forall_cons; [vm_compute; reflexivity|]); apply Forall_nil]|]).
  apply Forall_nil.
Qed.

Lemma sample_dist : path_join "tmp" "1occ.tmp" <> path_join "out" "fens-withoutone.tsv".
Proof. discriminate. Qed.

Lemma generateFinalFiles_contents_witness :
  Forall (fun i => piped sample_fs (partition_file "tmp" i) = render (sample_parts i) /\
                   Forall (fun l => no_break l = true) (sample_parts i)) [9; 8; 7; 6; 5; 4; 3; 2]%nat /\
  path_join "tmp" "1occ.tmp" <> path_join "out" "fens-withoutone.tsv" /\
  let g := generateFinalFiles "tmp" "out" sample_fs in
  let W := (header ++ tail_lines sample_fs (path_join "out" "fens-onlyrecurrent.tsv") ++
            render (flat_map sample_parts [9; 8; 7; 6; 5; 4; 3; 2]%nat))%string in
  fs_lookup g (path_join "out" "fens-withoutone.tsv") = Some W /\
  fs_lookup g (path_join "out" "fens-all.tsv") =
    Some (W ++ piped sample_fs (path_join "tmp" "1occ.tmp"))%string /\
  (forall q, q <> path_join "out" "fens-withoutone.tsv" ->
             q <> path_join "out" "fens-all.tsv" -> fs_lookup g q = fs_lookup sample_fs q).
Proof.
  split; [exact sample_parts_ok|split; [exact sample_dist|]].
  exact (generateFinalFiles_contents "tmp" "out" sample_fs sample_parts sample_parts_ok sample_dist).
Defined.

(** Under the same conditions, and when 1occ.tmp holds the whole lines L1 (or
    is missing, L1 empty), the statistics read back after generateFinalFiles
    add up: the count of fens-withoutone.tsv is the count of
    fens-onlyrecurrent.tsv plus the lines of the partitions 9 to 2, and the
    count of fens-all.tsv is that plus the lines of 1occ.tmp. *)
Theorem finalStats_add_up : forall tempDir outputDir f parts L1,
  Forall (fun i => piped f (partition_file tempDir i) = render (parts i) /\
                   Forall (fun l => no_break l = true) (parts i)) [9; 8; 7; 6; 5; 4; 3; 2]%nat ->
  path_join tempDir "1occ.tmp" <> path_join outputDir "fens-withoutone.tsv" ->
  piped f (path_join tempDir "1occ.tmp") = render L1 ->
  Forall (fun l => no_break l = true) L1 ->
  let s := calculateFinalStats outputDir (generateFinalFiles tempDir outputDir f) in
  withoutOneCount s =
    (onlyRecurrentCount s + length (flat_map parts [9; 8; 7; 6; 5; 4; 3; 2]%nat))%nat /\
  allCount s = (withoutOneCount s + length L1)%nat.
Proof.
  intros tempDir outputDir f parts L1 Hparts Hdist H1 HL1 s.
  destruct (gen_files tempDir outputDir f parts Hparts Hdist) as (E1 & E2 & HX & E3).
  set (only := path_join outputDir "fens-onlyrecurrent.tsv") in *.
  set (X := tail_list f only ++ flat_map parts partition_indices) in *.
  assert (Cwo : withoutOneCount s = length X).
  { apply (countLines_render _ _ _ E1 HX). }
  assert (Call : allCount s = (length X + length L1)%nat).
  { unfold s, calculateFinalStats. cbn [allCount].
    rewrite H1, <- render_app in E2. change (hdr :: X ++ L1) with ((hdr :: X) ++ L1) in E2.
    rewrite (countLines_render _ _ (X ++ L1)).
    - apply length_app.
    - exact E2.
    - apply Forall_app. split; assumption. }
  assert (Conly : onlyRecurrentCount s = length (tail_list f only)).
  { unfold s, calculateFinalStats. cbn [onlyRecurrentCount]. fold only.
    unfold countLines. rewrite E3.
    - unfold tail_list. destruct (fs_lookup f only) as [c|]; [|reflexivity].
      destruct (readline_lines c); cbn [tl length]; lia.
    - apply path_join_ne. discriminate.
    - apply path_join_ne. discriminate. }
  rewrite Call, Cwo, Conly. unfold X. rewrite length_app. split; reflexivity.
Qed.

Lemma finalStats_add_up_witness :
  Forall (fun i => piped sample_fs (partition_file "tmp" i) = render (sample_parts i) /\
                   Forall (fun l => no_break l = true) (sample_parts i)) [9; 8; 7; 6; 5; 4; 3; 2]%nat /\
  path_join "tmp" "1occ.tmp" <> path_join "out" "fens-withoutone.tsv" /\
  piped sample_fs (path_join "tmp" "1occ.tmp") = render ["c" ++ TAB ++ "1"]%string /\
  Forall (fun l => no_break l = true) ["c" ++ TAB ++ "1"]%string /\
  let s := calculateFinalStats "out" (generateFinalFiles "tmp" "out" sample_fs) in
  withoutOneCount s =
    (onlyRecurrentCount s + length (flat_map sample_parts [9; 8; 7; 6; 5; 4; 3; 2]%nat))%nat /\
  allCount s = (withoutOneCount s + length ["c" ++ TAB ++ "1"]%string)%nat.
Proof.
  assert (H3 : piped sample_fs (path_join "tmp" "1occ.tmp") = render ["c" ++ TAB ++ "1"]%string)
    by reflexivity.
  assert (H4 : Forall (fun l => no_break l = true) ["c" ++ TAB ++ "1"]%string)
    by (repeat constructor).
  split; [exact sample_parts_ok|split; [exact sample_dist|split; [exact H3|split; [exact H4|]]]].
  exact (finalStats_add_up "tmp" "out" sample_fs sample_parts _ sample_parts_ok sample_dist H3 H4).
Defined.

End OutputProps.

Module ChunkFilesFacts.
Import Js ChunkSorter FinalOutput ChunkFiles NumberFacts OutputFacts.
Local Open Scope list_scope.

Lemma run_batch_app : forall a b f,
  run_batch f (a ++ b) =
  match run_batch f a with
  | None => None
  | Some (ss, f') =>
      match run_batch f' b with
      | None => None
      | Some (ss', f'') => Some (ss ++ ss', f'')
      end
  end.
Proof.
  induction a as [|cf a IH]; intros b f; cbn [app run_batch].
  - destruct (run_batch f b) as [[ss f']|]; reflexivity.
  - destruct (processSingleChunk f cf) as [[s f1]|]; [|reflexivity].
    rewrite IH. destruct (run_batch f1 a) as [[ss f2]|]; [|reflexivity].
    destruct (run_batch f2 b) as [[ss' f3]|]; reflexivity.
Qed.

Lemma sort_batches_seq : forall fuel step files f, (1 <= step)%nat ->
  (length files <= fuel)%nat ->
  sort_batches fuel step files f =
  match run_batch f files with
  | Some (ss, f') => AllSorted ss f'
  | None => SortFailed
  end.
Proof.
  induction fuel as [|fuel IH]; intros step files f Hs Hlen.
  - destruct files; [reflexivity|cbn [length] in Hlen; lia].
  - destruct files as [|x xs]; [reflexivity|].
    assert (E : run_batch f (x :: xs) =
                run_batch f (firstn step (x :: xs) ++ skipn step (x :: xs)))
      by (rewrite firstn_skipn; reflexivity).
    cbn [sort_batches]. rewrite E, run_batch_app.
    destruct (run_batch f (firstn step (x :: xs))) as [[ss f']|]; [|reflexivity].
    rewrite IH; [|exact Hs|].
    + destruct (run_batch f' (skipn step (x :: xs))) as [[ss' f'']|]; reflexivity.
    + rewrite length_skipn. cbn [length] in *. lia.
Qed.

Lemma sort_batches_stuck : forall fuel files f, files <> [] ->
  sort_batches fuel 0 files f = NeverEnds.
Proof.
  induction fuel as [|fuel IH]; intros files f Hf.
  - destruct files; [congruence|reflexivity].
  - destruct files as [|x xs]; [congruence|].
    cbn [sort_batches firstn run_batch skipn]. rewrite IH by exact Hf. reflexivity.
Qed.

Lemma take_digits_all : forall s, all_digits (fst (take_digits s)) = true.
Proof.
  induction s as [|c s IH]; [reflexivity|]. cbn [take_digits].
  destruct (is_digit c) eqn:Ec; [|reflexivity].
  destruct (take_digits s) as [d r] eqn:E. cbn [fst] in *. cbn [all_digits]. rewrite Ec, IH.
  reflexivity.
Qed.

Lemma match_at_digits : forall suffix s d, match_at suffix s = Some d ->
  all_digits d = true /\ d <> "".
Proof.
  intros suffix s d H. unfold match_at in H.
  destruct (String.prefix "chunk_" s); [|discriminate].
  pose proof (take_digits_all (String.substring 6 (String.length s - 6) s)) as Hd.
  destruct (take_digits (String.substring 6 (String.length s - 6) s)) as [d0 r].
  cbn [fst] in Hd. destruct d0 as [|c d1]; [discriminate|].
  destruct (String.prefix suffix r); [|discriminate]. injection H as <-.
  split; [exact Hd|discriminate].
Qed.

Lemma chunk_match_digits : forall suffix s d, chunk_match suffix s = Some d ->
  all_digits d = true /\ d <> "".
Proof.
  intros suffix. induction s as [|c s IH]; intros d H; cbn [chunk_match] in H.
  - destruct (match_at suffix "") eqn:E; [|discriminate].
    injection H as <-. exact (match_at_digits _ _ _ E).
  - destruct (match_at suffix (String c s)) eqn:E.
    + injection H as <-. exact (match_at_digits _ _ _ E).
    + exact (IH _ H).
Qed.

Lemma parse_digits_some : forall b s a, exists z, parse_digits b s (Some a) = Some z.
Proof.
  intros b. induction s as [|c s IH]; intros a; [eexists; reflexivity|].
  cbn [parse_digits]. destruct (digit_value b c); [apply IH|eexists; reflexivity].
Qed.

Lemma digit_value_digit : forall c, ChunkFiles.is_digit c = true ->
  exists v, digit_value 10 c = Some v.
Proof.
  intros c H. destruct (is_digit_cases c H) as [E|[E|[E|[E|[E|[E|[E|[E|[E|E]]]]]]]]];
    subst c; eexists; reflexivity.
Qed.

Lemma parseInt_digits_some : forall d, all_digits d = true -> d <> "" ->
  exists z, parseInt d = Some z.
Proof.
  intros d Hd Hne. rewrite parseInt_digits by exact Hd.
  destruct d as [|c d]; [congruence|]. cbn [all_digits] in Hd.
  apply andb_prop in Hd as [Hc _]. destruct (digit_value_digit c Hc) as [v Hv].
  cbn [parse_digits]. rewrite Hv. apply parse_digits_some.
Qed.

Lemma chunk_number_some : forall suffix name, exists z, chunk_number suffix name = Some z.
Proof.
  intros suffix name. unfold chunk_number.
  destruct (chunk_match suffix name) as [d|] eqn:E.
  - destruct (chunk_match_digits _ _ _ E) as [Hd Hne]. exact (parseInt_digits_some d Hd Hne).
  - eexists; reflexivity.
Qed.

Lemma by_chunk_number_sym : forall suffix a b,
  by_chunk_number suffix b a = CompOpp (by_chunk_number suffix a b).
Proof.
  intros suffix a b. unfold by_chunk_number.
  destruct (chunk_number suffix a), (chunk_number suffix b); try reflexivity.
  apply Z.compare_antisym.
Qed.

(** Ascending chunk numbers, both numbers being defined. *)
Definition num_le (suffix a b : string) : Prop :=
  exists x y, chunk_number suffix a = Some x /\ chunk_number suffix b = Some y /\ (x <= y)%Z.

Lemma le_num_le : forall suffix a b,
  StableSort.le (by_chunk_number suffix) a b -> num_le suffix a b.
Proof.
  intros suffix a b H. unfold StableSort.le, by_chunk_number in H.
  destruct (chunk_number_some suffix a) as [x Hx], (chunk_number_some suffix b) as [y Hy].
  rewrite Hx, Hy in H. exists x, y. split; [exact Hx|split; [exact Hy|exact H]].
Qed.

Lemma sort_by_number : forall suffix l,
  Permutation (StableSort.sort (by_chunk_number suffix) l) l /\
  Sorted (num_le suffix) (StableSort.sort (by_chunk_number suffix) l).
Proof.
  intros suffix l. split; [apply SortFacts.sort_perm|].
  apply (sorted_impl _ _ _ (le_num_le suffix)).
  apply SortFacts.sort_sorted; exact (by_chunk_number_sym suffix).
Qed.

End ChunkFilesFacts.

Module ChunkFilesProps.
Import Js ChunkSorter FinalOutput ChunkFiles ChunkFilesFacts.
Local Open Scope list_scope.

(** With at least one worker, processAllChunks gives the same outcome as
    sorting every chunk file one after the other in chunkFiles order: the
    batch size only changes how many sorts run at once. It rejects exactly
    when one of the sorts does. *)
Theorem processAllChunks_sequential : forall numWorkers tempDir names f,
  (1 <= numWorkers)%nat ->
  processAllChunks numWorkers tempDir (Some names) f =
  match run_batch f (chunkFiles tempDir names) with
  | Some (ss, f') => AllSorted ss f'
  | None => SortFailed
  end.
Proof.
  intros numWorkers tempDir names f Hn. unfold processAllChunks.
  apply sort_batches_seq; [lia|lia].
Qed.

Lemma processAllChunks_sequential_witness :
  (1 <= 4)%nat /\
  processAllChunks 4 "tmp" (Some ["chunk_0.tmp"; "chunk_1.tmp"])
    [("tmp/chunk_0.tmp", "b|1-0"); ("tmp/chunk_1.tmp", "a|0-1")] =
  match run_batch [("tmp/chunk_0.tmp", "b|1-0"); ("tmp/chunk_1.tmp", "a|0-1")]
          (chunkFiles "tmp" ["chunk_0.tmp"; "chunk_1.tmp"]) with
  | Some (ss, f') => AllSorted ss f'
  | None => SortFailed
  end.
Proof.
  assert (H : (1 <= 4)%nat) by lia. split; [exact H|].
  exact (processAllChunks_sequential 4 "tmp" _ _ H).
Defined.

(** When the machine reports no CPU (numWorkers = 0), the batch step is 0:
    with at least one chunk file the loop never advances and
    processAllChunks never ends. *)
Theorem processAllChunks_no_workers : forall tempDir names f,
  chunkFiles tempDir names <> [] ->
  processAllChunks 0 tempDir (Some names) f = NeverEnds.
Proof.
  intros tempDir names f H. unfold processAllChunks. apply sort_batches_stuck. exact H.
Qed.

Lemma processAllChunks_no_workers_witness :
  chunkFiles "tmp" ["chunk_0.tmp"] <> [] /\
  processAllChunks 0 "tmp" (Some ["chunk_0.tmp"]) [] = NeverEnds.
Proof.
  assert (H : chunkFiles "tmp" ["chunk_0.tmp"] <> []) by (vm_compute; discriminate).
  split; [exact H|]. exact (processAllChunks_no_workers "tmp" _ [] H).
Defined.

(** chunkFiles lists, under tempDir, exactly the directory entries that start
    with chunk_, end with .tmp and do not contain _sorted, ordered by
    ascending chunk number; every such name has a chunk number (0 when the
    number cannot be read). *)
Theorem chunkFiles_order : forall tempDir names,
  exists L, chunkFiles tempDir names = map (path_join tempDir) L /\
    Permutation L (filter select_chunk names) /\ Sorted (num_le ".tmp") L.
Proof.
  intros tempDir names.
  exists (StableSort.sort (by_chunk_number ".tmp") (filter select_chunk names)).
  split; [reflexivity|apply sort_by_number].
Qed.

(** getSortedFiles fails (None) exactly when no entry contains _sorted.tmp;
    otherwise it lists, under tempDir, all those entries by ascending chunk
    number. *)
Theorem getSortedFiles_order : forall tempDir names,
  exists L, Permutation L (filter (includes "_sorted.tmp") names) /\
    Sorted (num_le "_sorted.tmp") L /\
    getSortedFiles tempDir (Some names) =
      match L with [] => None | _ => Some (map (path_join tempDir) L) end.
Proof.
  intros tempDir names.
  exists (StableSort.sort (by_chunk_number "_sorted.tmp") (filter (includes "_sorted.tmp") names)).
  destruct (sort_by_number "_sorted.tmp" (filter (includes "_sorted.tmp") names)) as [P S].
  split; [exact P|split; [exact S|]].
  unfold getSortedFiles.
  destruct (StableSort.sort (by_chunk_number "_sorted.tmp") (filter (includes "_sorted.tmp") names));
    reflexivity.
Qed.

End ChunkFilesProps.

Module MergeProps.
Import Js MergeWorker LineFacts ReadBackFacts ReaderFacts.
Local Open Scope list_scope.




(** When every record of a merge has a hash and a fen text without newline
    and the hash starts with a non-space character, the reader of the next
    phase gets back from the output file exactly the written lines, one per
    record, in order: as many lines as positionsWritten. *)
Theorem merge_output_read_back : forall inputFiles isFirstPhase,
  Forall line_ok (kWayMergeRecords (map reader_lines inputFiles) isFirstPhase) ->
  let m := kWayMergeToSingleFile inputFiles isFirstPhase in
  reader_lines (output m) =
    map output_text (kWayMergeRecords (map reader_lines inputFiles) isFirstPhase) /\
  length (reader_lines (output m)) = positionsWritten m.
Proof.
  intros inputFiles isFirstPhase H m. unfold m, kWayMergeToSingleFile; cbn [output positionsWritten].
  rewrite reader_lines_output by exact H. split; [reflexivity|apply length_map].
Qed.

Definition sample_chunk : string := ("d4fen|0-1" ++ NL ++ "e4fen|1-0" ++ NL)%string.

Lemma merge_output_read_back_witness :
  Forall line_ok (kWayMergeRecords (map reader_lines [sample_chunk]) true) /\
  let m := kWayMergeToSingleFile [sample_chunk] true in
  reader_lines (output m) =
    map output_text (kWayMergeRecords (map reader_lines [sample_chunk]) true) /\
  length (reader_lines (output m)) = positionsWritten m.
Proof.
  assert (H : Forall line_ok (kWayMergeRecords (map reader_lines [sample_chunk]) true)).
  { vm_compute. repeat apply Forall_cons; try apply Forall_nil;
      (split; [reflexivity|split; [reflexivity|eexists _, _; split; reflexivity]]). }
  split; [exact H|]. exact (merge_output_read_back [sample_chunk] true H).
Defined.

End MergeProps.
